(** * Curious Explorer: the exploration orchestration engine

    A shallow embedding of the session reducer, the tree helpers
    ([findPathToNode], [updateItemInTree]), the context-query builder and
    the explore pipeline of the ExplorerContext module, together with the
    image-synthesis and scanning services of the gemini module.

    Conventions of the embedding:
    - JavaScript strings are [string]s; [toLowerCase] and [trim], whose
      results depend on the Unicode tables of the platform, are parameters
      of the model (the class [Js.Text]): every statement holds for every
      such pair of functions, and the examples run on the ASCII instance;
    - JavaScript numbers that the engine itself computes (depth, the
      fallback coordinates, clock readings) are integers, modelled in [Z];
    - an optional field ([images?], [children?], [parentId?]) is an
      [option]; the truthiness tests of the source are written out
      ([truthy] for strings: the empty string is falsy);
    - the AI service and the clock are oracles: one record [Env] fixes the
      replies a run receives;
    - [dispatch] is modelled by a trace of actions, an exception by the
      [Throw] outcome of a small trace-and-error monad. *)

From stdpp Require Import base list strings.
From Stdlib Require Import ZArith Ascii String DecimalString.

Open Scope string_scope.
Open Scope list_scope.

(** ** Strings as the source uses them *)

Module Js.

(** The text primitives that follow the Unicode tables: [s.toLowerCase()]
    (case mappings) and [s.trim()] (white space and line terminators).
    Nothing is assumed of them. *)
Class Text := {
  toLowerCase : string → string;
  trim : string → string
}.

(** [s.includes(sub)] *)
Fixpoint includes (s sub : string) : bool :=
  String.prefix sub s
  || match s with
     | EmptyString => false
     | String _ t => includes t sub
     end.

(** A string in a boolean position. *)
Definition truthy (s : string) : bool := negb (String.eqb s "").

(** An optional string in a boolean position ([undefined] is falsy). *)
Definition truthy_opt (o : option string) : bool :=
  match o with
  | Some s => truthy s
  | None => false
  end.

(** [a || b] on an optional string with a string default. *)
Definition or_else (o : option string) (d : string) : string :=
  match o with
  | Some s => if truthy s then s else d
  | None => d
  end.

(** [xs.join(sep)] *)
Fixpoint join (sep : string) (xs : list string) : string :=
  match xs with
  | [] => ""
  | [x] => x
  | x :: rest => x +:+ sep +:+ join sep rest
  end.

(** Decimal rendering of an integer, as in a template literal. *)
Definition num_to_string (z : Z) : string :=
  NilZero.string_of_int (Z.to_int z).

End Js.

(** The two primitives on ASCII text, where no Unicode table is needed:
    the letters A to Z are lowered, and the white space is the characters 9
    to 13 and the space. On strings of ASCII characters this is what the
    platform computes; the examples of this development use such strings
    only. *)
Module AsciiText.

Definition lower_ascii (c : ascii) : ascii :=
  let n := N_of_ascii c in
  if ((65 <=? n) && (n <=? 90))%N then ascii_of_N (n + 32) else c.

Fixpoint toLowerCase (s : string) : string :=
  match s with
  | EmptyString => EmptyString
  | String c t => String (lower_ascii c) (toLowerCase t)
  end.

Definition is_space (c : ascii) : bool :=
  let n := N_of_ascii c in
  (((9 <=? n) && (n <=? 13)) || (n =? 32))%N.

Fixpoint trimStart (s : string) : string :=
  match s with
  | EmptyString => EmptyString
  | String c t => if is_space c then trimStart t else s
  end.

Definition trim (s : string) : string :=
  String.rev (trimStart (String.rev (trimStart s))).

End AsciiText.

#[global] Instance ascii_text : Js.Text :=
  {| Js.toLowerCase := AsciiText.toLowerCase; Js.trim := AsciiText.trim |}.

(** ** Data model (types module) *)

Record ItemPart := mkPart {
  part_id : string;
  part_name : string;
  part_description : string;
  part_x : Z;
  part_y : Z
}.

Record ItemImages := mkImages {
  assembled : option string;
  cutaway : option string;
  exploded : string
}.

Record ItemCharacteristic := mkCharacteristic {
  label : string;
  value : string
}.

#[warnings="-register-all"] Inductive ExploredItem : Type := mkItem {
  id : string;
  rootId : string;
  name : string;
  category : string;
  description : string;
  images : option ItemImages;
  parts : list ItemPart;
  facts : option (list string);
  characteristics : option (list ItemCharacteristic);
  parentId : option string;
  children : option (list ExploredItem);
  depth : Z;
  timestamp : Z
}.

(** [{ ...root, children: cs }] *)
Definition with_children (root : ExploredItem) (cs : list ExploredItem) : ExploredItem :=
  {| id := id root; rootId := rootId root; name := name root;
     category := category root; description := description root;
     images := images root; parts := parts root; facts := facts root;
     characteristics := characteristics root; parentId := parentId root;
     children := Some cs; depth := depth root; timestamp := timestamp root |}.

(** [root.children || []] *)
Definition kids (root : ExploredItem) : list ExploredItem :=
  default [] (children root).

(** Induction over the tree, through the optional children list. *)
Section ItemInduction.
Variable P : ExploredItem → Prop.
Hypothesis step : ∀ it, Forall P (kids it) → P it.

Fixpoint ExploredItem_tree_ind (it : ExploredItem) : P it :=
  step it
    (match it as i return Forall P (kids i) with
     | mkItem _ _ _ _ _ _ _ _ _ _ cs _ _ =>
         match cs as o return Forall P (default [] o) with
         | None => @List.Forall_nil _ P
         | Some l =>
             (fix go (l : list ExploredItem) : Forall P l :=
                match l with
                | [] => @List.Forall_nil _ P
                | c :: r => @List.Forall_cons _ P c r (ExploredItem_tree_ind c) (go r)
                end) l
         end
     end).
End ItemInduction.

(** ** Tree helpers *)

(** The loop of [findPathToNode] over the children: the first child whose
    subtree holds the target decides. *)
Definition first_path (find : ExploredItem → option (list ExploredItem))
  : list ExploredItem → option (list ExploredItem) :=
  fix go (cs : list ExploredItem) :=
    match cs with
    | [] => None
    | child :: rest =>
        match find child with
        | Some path => Some path
        | None => go rest
        end
    end.

Fixpoint findPathToNode (root : ExploredItem) (targetId : string)
  : option (list ExploredItem) :=
  if String.eqb (id root) targetId then Some [root]
  else
    match children root with
    | Some cs =>
        match first_path (fun child => findPathToNode child targetId) cs with
        | Some path => Some (root :: path)
        | None => None
        end
    | None => None
    end.

(** [existingChildren.some(c => c.id === newChild.id)] *)
Definition has_id (i : string) (cs : list ExploredItem) : bool :=
  existsb (fun c => String.eqb (id c) i) cs.

Fixpoint updateItemInTree (root : ExploredItem) (targetId : string)
  (newChild : ExploredItem) : ExploredItem :=
  if String.eqb (id root) targetId then
    let existingChildren := kids root in
    let exists_ := has_id (id newChild) existingChildren in
    with_children root
      (if exists_ then existingChildren else existingChildren ++ [newChild])
  else
    match children root with
    | Some cs =>
        with_children root
          (map (fun child => updateItemInTree child targetId newChild) cs)
    | None => root
    end.

(** ** Session state and actions (types module) *)

Inductive Stage :=
  | idle | analyzing | rendering_assembled | rendering_details
  | scanning | complete | error.

Record GenerationStatus := mkStatus {
  isGenerating : bool;
  stage : Stage;
  message : option string;
  currentFacts : option (list string)
}.

Inductive PerspectiveType := General | Industrial | Scientific | Conceptual.
Inductive StyleType := Default | Schematic | Drawing.
Inductive DetailLevelType := Simple | Normal | Detailed.

Record GenerationOptions := mkOptions {
  perspective : PerspectiveType;
  style : StyleType;
  detailLevel : DetailLevelType
}.

(** [Partial<GenerationOptions>] *)
Record PartialOptions := mkPartialOptions {
  perspective_opt : option PerspectiveType;
  style_opt : option StyleType;
  detailLevel_opt : option DetailLevelType
}.

Inductive GenerationMode := fast | full.

Record AppState := mkState {
  currentItem : option ExploredItem;
  history : list ExploredItem;
  collection : list ExploredItem;
  status : GenerationStatus;
  generationMode : GenerationMode;
  generationOptions : GenerationOptions;
  isConfigured : bool;
  isOffline : bool
}.

Inductive ExploreAction :=
  | UPDATE_SESSION (item : ExploredItem) (path : list ExploredItem) (root : ExploredItem)
  | INIT_COLLECTION (items : list ExploredItem)
  | REMOVE_FROM_COLLECTION (target : string)
  | LOAD_FROM_COLLECTION (rootItem : ExploredItem)
  | SET_STATUS (st : GenerationStatus)
  | NAVIGATE_TO (targetId : string)
  | SET_GENERATION_MODE (mode : GenerationMode)
  | SET_GENERATION_OPTIONS (opts : PartialOptions)
  | CONFIGURE_ACCESS (offline : bool)
  | RESET
  | RECONFIGURE.

Definition idle_status : GenerationStatus :=
  {| isGenerating := false; stage := idle; message := None; currentFacts := None |}.

Definition initialState : AppState :=
  {| currentItem := None;
     history := [];
     collection := [];
     status := idle_status;
     generationMode := full;
     generationOptions :=
       {| perspective := General; style := Default; detailLevel := Normal |};
     isConfigured := false;
     isOffline := false |}.

(** [xs.findIndex(p)], with [None] for the source's -1. *)
Fixpoint findIndex {A : Type} (p : A → bool) (xs : list A) : option nat :=
  match xs with
  | [] => None
  | x :: rest => if p x then Some 0 else S <$> findIndex p rest
  end.

(** [{ ...base, ...patch }] on generation options. *)
Definition merge_options (base : GenerationOptions) (patch : PartialOptions)
  : GenerationOptions :=
  {| perspective := default (perspective base) (perspective_opt patch);
     style := default (style base) (style_opt patch);
     detailLevel := default (detailLevel base) (detailLevel_opt patch) |}.

(** ** The reducer *)

Definition reducer (state : AppState) (action : ExploreAction) : AppState :=
  match action with
  | UPDATE_SESSION item path root =>
      let newCollection :=
        match findIndex (fun i => String.eqb (id i) (id root)) (collection state) with
        | Some existingIdx => <[existingIdx := root]> (collection state)
        | None => root :: collection state
        end in
      {| currentItem := Some item;
         history := path;
         collection := newCollection;
         status := status state;
         generationMode := generationMode state;
         generationOptions := generationOptions state;
         isConfigured := isConfigured state;
         isOffline := isOffline state |}
  | INIT_COLLECTION items =>
      {| currentItem := currentItem state;
         history := history state;
         collection := items;
         status := status state;
         generationMode := generationMode state;
         generationOptions := generationOptions state;
         isConfigured := isConfigured state;
         isOffline := isOffline state |}
  | REMOVE_FROM_COLLECTION target =>
      {| currentItem := currentItem state;
         history := history state;
         collection :=
           List.filter (fun item => negb (String.eqb (id item) target))
             (collection state);
         status := status state;
         generationMode := generationMode state;
         generationOptions := generationOptions state;
         isConfigured := isConfigured state;
         isOffline := isOffline state |}
  | LOAD_FROM_COLLECTION rootItem =>
      {| currentItem := Some rootItem;
         history := [rootItem];
         collection := collection state;
         status := idle_status;
         generationMode := generationMode state;
         generationOptions := generationOptions state;
         isConfigured := isConfigured state;
         isOffline := isOffline state |}
  | SET_STATUS st =>
      {| currentItem := currentItem state;
         history := history state;
         collection := collection state;
         status := st;
         generationMode := generationMode state;
         generationOptions := generationOptions state;
         isConfigured := isConfigured state;
         isOffline := isOffline state |}
  | NAVIGATE_TO targetId =>
      match history state with
      | [] => state
      | currentRoot :: _ =>
          match findPathToNode currentRoot targetId with
          | None => state
          | Some newPath =>
              {| currentItem := last newPath;
                 history := newPath;
                 collection := collection state;
                 status := status state;
                 generationMode := generationMode state;
                 generationOptions := generationOptions state;
                 isConfigured := isConfigured state;
                 isOffline := isOffline state |}
          end
      end
  | SET_GENERATION_MODE mode =>
      {| currentItem := currentItem state;
         history := history state;
         collection := collection state;
         status := status state;
         generationMode := mode;
         generationOptions := generationOptions state;
         isConfigured := isConfigured state;
         isOffline := isOffline state |}
  | SET_GENERATION_OPTIONS opts =>
      {| currentItem := currentItem state;
         history := history state;
         collection := collection state;
         status := status state;
         generationMode := generationMode state;
         generationOptions := merge_options (generationOptions state) opts;
         isConfigured := isConfigured state;
         isOffline := isOffline state |}
  | CONFIGURE_ACCESS offline =>
      {| currentItem := currentItem state;
         history := history state;
         collection := collection state;
         status := status state;
         generationMode := generationMode state;
         generationOptions := generationOptions state;
         isConfigured := true;
         isOffline := offline |}
  | RESET =>
      {| currentItem := currentItem initialState;
         history := history initialState;
         collection := collection state;
         status := status initialState;
         generationMode := generationMode state;
         generationOptions := generationOptions state;
         isConfigured := isConfigured state;
         isOffline := isOffline state |}
  | RECONFIGURE =>
      {| currentItem := currentItem initialState;
         history := history initialState;
         collection := collection state;
         status := status initialState;
         generationMode := generationMode state;
         generationOptions := generationOptions state;
         isConfigured := false;
         isOffline := false |}
  end.

(** The state after a sequence of dispatched actions. *)
Definition dispatch_all (state : AppState) (trace : list ExploreAction) : AppState :=
  fold_left reducer trace state.

(** ** Dispatch traces and exceptions *)

Inductive Outcome (A : Type) :=
  | Return (a : A)
  | Throw (msg : string).
Arguments Return {A} a.
Arguments Throw {A} msg.

(** A computation of the provider: the actions it dispatched, in order, and
    how it ended. *)
Definition Run (A : Type) : Type := list ExploreAction * Outcome A.

#[global] Instance Run_ret : MRet Run := λ A a, ([], Return a).

#[global] Instance Run_bind : MBind Run := λ A B k m,
  match m with
  | (tr, Return a) => let '(tr', r) := k a in (tr ++ tr', r)
  | (tr, Throw msg) => (tr, Throw msg)
  end.

Definition throw {A : Type} (msg : string) : Run A := ([], Throw msg).

Definition dispatch (action : ExploreAction) : Run unit := ([action], Return tt).

(** [try { body } catch (error) { handler }] *)
Definition try_catch (body handler : Run unit) : Run unit :=
  match body with
  | (tr, Return _) => (tr, Return tt)
  | (tr, Throw _) => let '(tr', r) := handler in (tr ++ tr', r)
  end.

(** ** The AI capability and the clock, as oracles *)

Inductive Reply (A : Type) :=
  | Fails
  | Replies (a : A).
Arguments Fails {A}.
Arguments Replies {A} a.

(** The parsed JSON of the analysis response; every field may be missing. *)
Record AnalysisData := mkAnalysisData {
  data_name : option string;
  data_category : option string;
  data_description : option string;
  data_partNames : option (list string);
  data_facts : option (list string);
  data_characteristics : option (list ItemCharacteristic)
}.

(** One entry of the parsed JSON of the scanning response. *)
Record ScanEntry := mkScanEntry {
  scan_name : string;
  scan_description : string;
  scan_x : Z;
  scan_y : Z
}.

(** The four image requests, told apart by the view tag of their prompt. *)
Inductive ImageRequest :=
  | FastExploded | AssembledView | CutawayView | ExplodedWithRef.

(** The places where [Date.now()] is read. *)
Inductive Tick :=
  | AtAnalysis
  | AtPart (index : nat)
  | AtCompile.

Record Env := mkEnv {
  apiKey : string;
  (** the text of the identification response, if the call succeeds *)
  identify_reply : Reply (option string);
  analysis_reply : Reply AnalysisData;
  (** the parts of the first candidate: the [inlineData.data] of each part
      that has one *)
  image_reply : ImageRequest → Reply (list (option string));
  scan_reply : Reply (list ScanEntry);
  clock : Tick → Z
}.

(** ** Services (gemini module) *)

Record StructureAnalysis := mkStructure {
  s_id : string;
  s_name : string;
  s_category : string;
  s_description : string;
  s_partNames : list string;
  s_facts : list string;
  s_characteristics : list ItemCharacteristic
}.

Section Engine.
Context `{platform : Js.Text}.

Definition identifyMainObject (env : Env) (imageBase64 : string) : Run string :=
  if negb (Js.truthy (apiKey env)) then throw "API Key required for identification"
  else
    match identify_reply env with
    | Fails => throw "Failed to identify object."
    | Replies text => mret (Js.or_else (Js.trim <$> text) "Unknown Object")
    end.

Definition analyzeStructure (env : Env) (query : string) : Run StructureAnalysis :=
  if negb (Js.truthy (apiKey env)) then throw "API Key required for analysis"
  else
    match analysis_reply env with
    | Fails => throw "Failed to analyze object structure."
    | Replies data =>
        mret {| s_id := Js.num_to_string (clock env AtAnalysis);
                s_name := Js.or_else (data_name data) query;
                s_category := Js.or_else (data_category data) "Unknown";
                s_description := Js.or_else (data_description data) "No description.";
                s_partNames := default [] (data_partNames data);
                s_facts := default [] (data_facts data);
                s_characteristics := default [] (data_characteristics data) |}
    end.

(** The first part of the reply that carries inline data. *)
Fixpoint first_inline (ps : list (option string)) : option string :=
  match ps with
  | [] => None
  | Some data :: _ => Some ("data:image/png;base64," +:+ data)
  | None :: rest => first_inline rest
  end.

Definition generateImage (env : Env) (request : ImageRequest) : option string :=
  if negb (Js.truthy (apiKey env)) then None
  else
    match image_reply env request with
    | Fails => None
    | Replies ps => first_inline ps
    end.

Definition generateVisualAssets (env : Env) (subject : string)
  (partNames : list string) (mode : GenerationMode)
  (initialReferenceImage : option string) (options : GenerationOptions)
  : option ItemImages :=
  if negb (Js.truthy (apiKey env)) then None
  else
    match mode with
    | fast =>
        let exploded := generateImage env FastExploded in
        if negb (Js.truthy_opt exploded) then None
        else Some {| assembled := None; cutaway := None;
                     exploded := default "" exploded |}
    | full =>
        let assembled := generateImage env AssembledView in
        if negb (Js.truthy_opt assembled) then None
        else
          let assembled := default "" assembled in
          let cutaway := generateImage env CutawayView in
          let exploded := generateImage env ExplodedWithRef in
          Some {| assembled := Some assembled;
                  cutaway := Some (Js.or_else cutaway assembled);
                  exploded := Js.or_else exploded assembled |}
    end.

Definition part_ident (env : Env) (index : nat) : string :=
  Js.num_to_string (clock env (AtPart index)) +:+ "-"
  +:+ Js.num_to_string (Z.of_nat index).

Definition detectPartCoordinates (env : Env) (explodedImageBase64 : string)
  (partNames : list string) : list ItemPart :=
  if negb (Js.truthy explodedImageBase64) || negb (Js.truthy (apiKey env)) then []
  else
    match scan_reply env with
    | Fails => []
    | Replies partsData =>
        imap (fun index p =>
                {| part_id := part_ident env index;
                   part_name := scan_name p;
                   part_description := scan_description p;
                   part_x := scan_x p;
                   part_y := scan_y p |}) partsData
    end.

(** ** The context-aware query (provider, inside [explore]) *)

(** The deduplication loop
    [for (let i = cleanParts.length - 1; i > 0; i--)], entered with the
    current value of [i]; the array is updated in place. *)
Fixpoint dedup_loop (i : nat) (cleanParts : list string) : list string :=
  match i with
  | 0 => cleanParts
  | S j =>
      let here := default "" (cleanParts !! i) in
      let before := default "" (cleanParts !! j) in
      dedup_loop j
        (if Js.includes (Js.toLowerCase here) (Js.toLowerCase before)
         then <[j := ""]> cleanParts
         else cleanParts)
  end.

Definition cleanParts (parts : list string) : list string :=
  dedup_loop (List.length parts - 1) parts.

(** [cleanParts.filter(p => p !== '').join(' ')] *)
Definition contextString (parts : list string) : string :=
  Js.join " " (List.filter (fun p => negb (String.eqb p "")) (cleanParts parts)).

(** The query built once a path to the parent has been found. *)
Definition lineageQuery (path : list ExploredItem) (query : string) : string :=
  query +:+ " from " +:+ contextString (map name path).

Definition contextQuery (state : AppState) (query : string)
  (parentId : option string) : string :=
  match parentId, history state with
  | Some pid, currentRoot :: _ =>
      if Js.truthy pid then
        match findPathToNode currentRoot pid with
        | Some path => lineageQuery path query
        | None => query
        end
      else query
  | _, _ => query
  end.

(** ** The explore pipeline (provider) *)

(** The memory check: the first child of the current item whose name
    contains the query or is contained in it, both lower-cased. *)
Definition name_matches (query : string) (c : ExploredItem) : bool :=
  Js.includes (Js.toLowerCase (name c)) (Js.toLowerCase query)
  || Js.includes (Js.toLowerCase query) (Js.toLowerCase (name c)).

Definition existingChild (state : AppState) (query : string)
  (parentId : option string) : option ExploredItem :=
  if Js.truthy_opt parentId then
    match currentItem state with
    | Some cur =>
        match children cur with
        | Some cs => List.find (name_matches query) cs
        | None => None
        end
    | None => None
    end
  else None.

Definition offline_status : GenerationStatus :=
  {| isGenerating := false; stage := error;
     message := Some "Offline Mode: Cannot generate new explorations.";
     currentFacts := None |}.

Definition failure_status : GenerationStatus :=
  {| isGenerating := false; stage := error;
     message := Some "Exploration failed. System Error.";
     currentFacts := None |}.

Definition complete_status : GenerationStatus :=
  {| isGenerating := false; stage := complete; message := None;
     currentFacts := None |}.

(** The synthetic placement of the parts when there is no exploded image. *)
Definition fallbackParts (env : Env) (partNames : list string) : list ItemPart :=
  imap (fun i name =>
          {| part_id := part_ident env i;
             part_name := name;
             part_description := "Visual analysis unavailable.";
             part_x := 50;
             part_y := 50 + Z.of_nat i * 10 |}) partNames.

(** [images && images.exploded] *)
Definition explodedOf (images : option ItemImages) : option string :=
  match images with
  | Some imgs => if Js.truthy (exploded imgs) then Some (exploded imgs) else None
  | None => None
  end.

(** The body of the [try] block of [explore]. *)
Definition pipeline (env : Env) (state : AppState) (query : string)
  (parentId : option string) (referenceImage : option string) : Run unit :=
  let depth :=
    match (if Js.truthy_opt parentId then currentItem state else None) with
    | Some cur => (depth cur + 1)%Z
    | None => 0%Z
    end in
  let contextQuery := contextQuery state query parentId in
  dispatch (SET_STATUS
    {| isGenerating := true; stage := analyzing;
       message := Some ("Analyzing structure of " +:+ query +:+ "...");
       currentFacts := None |}) ;;
  structure ← analyzeStructure env contextQuery ;
  let effectiveName :=
    if Js.truthy_opt parentId then contextQuery else s_name structure in
  dispatch (SET_STATUS
    {| isGenerating := true; stage := rendering_assembled;
       message := Some (match generationMode state with
                        | full => "Constructing base model..."
                        | fast => "Generating schematic..."
                        end);
       currentFacts := Some (s_facts structure) |}) ;;
  let images :=
    generateVisualAssets env effectiveName (s_partNames structure)
      (generationMode state) referenceImage (generationOptions state) in
  finalParts ←
    match explodedOf images with
    | Some explodedImage =>
        dispatch (SET_STATUS
          {| isGenerating := true; stage := scanning;
             message := Some "Calibrating component locations...";
             currentFacts := Some (s_facts structure) |}) ;;
        mret (detectPartCoordinates env explodedImage (s_partNames structure))
    | None => mret (fallbackParts env (s_partNames structure))
    end ;
  rootId ←
    (if Js.truthy_opt parentId then
       match history state with
       | currentRoot :: _ => mret (id currentRoot)
       | [] => throw "TypeError: cannot read properties of undefined"
       end
     else mret (s_id structure)) ;
  let completeItem :=
    {| id := s_id structure;
       name := effectiveName;
       category := s_category structure;
       description := s_description structure;
       parts := finalParts;
       images := images;
       rootId := rootId;
       parentId := parentId;
       depth := depth;
       timestamp := clock env AtCompile;
       children := Some [];
       facts := Some (s_facts structure);
       characteristics := Some (s_characteristics structure) |} in
  let '(newRoot, newHistory) :=
    match (if Js.truthy_opt parentId then parentId else None), history state with
    | Some pid, currentRoot :: _ =>
        let newRoot := updateItemInTree currentRoot pid completeItem in
        (newRoot,
         default [newRoot; completeItem] (findPathToNode newRoot (id completeItem)))
    | _, _ => (completeItem, [completeItem])
    end in
  dispatch (UPDATE_SESSION completeItem newHistory newRoot) ;;
  dispatch (SET_STATUS complete_status).

Definition explore (env : Env) (state : AppState) (query : string)
  (parentId : option string) (referenceImage : option string) : Run unit :=
  if isGenerating (status state) then mret tt
  else
    match existingChild state query parentId with
    | Some child => dispatch (NAVIGATE_TO (id child))
    | None =>
        if isOffline state then dispatch (SET_STATUS offline_status)
        else
          try_catch (pipeline env state query parentId referenceImage)
                    (dispatch (SET_STATUS failure_status))
    end.

Definition exploreFromDataUrl (env : Env) (state : AppState) (base64 : string)
  : Run unit :=
  if isGenerating (status state) then mret tt
  else if isOffline state then dispatch (SET_STATUS offline_status)
  else
    dispatch (SET_STATUS
      {| isGenerating := true; stage := analyzing;
         message := Some "Scanning image for object identification...";
         currentFacts := None |}) ;;
    try_catch
      (objectName ← identifyMainObject env base64 ;
       explore env state objectName None (Some base64))
      (dispatch (SET_STATUS
         {| isGenerating := false; stage := error;
            message := Some "Failed to identify object from image.";
            currentFacts := None |})).

End Engine.

(** The state a request leaves behind. *)
Definition after (state : AppState) (run : Run unit) : AppState :=
  dispatch_all state run.1.

From Stdlib Require Import DecimalPos DecimalZ.
From stdpp Require Import gmap sorting.

(** ** The part-name filter of the synthesis prompts (gemini module)

    [generateVisualAssets] lists the parts in its prompts after this filter;
    the prompts are texts for the image service and are not modelled. *)

(** [s.split(sep)] for a separator of one character. *)
Fixpoint split (sep : ascii) (s : string) : list string :=
  match s with
  | EmptyString => [EmptyString]
  | String c t =>
      if Ascii.eqb c sep then EmptyString :: split sep t
      else match split sep t with
           | token :: tokens => String c token :: tokens
           | [] => [String c EmptyString]
           end
  end.

Definition safePartNames `{platform : Js.Text} (subject : string)
  (partNames : list string)
  : list string :=
  let subjectTokens := split " " (Js.toLowerCase subject) in
  List.filter
    (fun part =>
       let partLower := Js.toLowerCase part in
       if existsb (String.eqb partLower) subjectTokens then false else true)
    partNames.

(** ** Persistence (db module)

    The object store 'explorations' holds items under the key path 'id': a
    finite map from identifiers to items. The database can fail an
    operation in two places: [openDB] rejects, or the request (for the bulk
    save: the transaction, as a whole) reports an error. *)

Abbreviation Store := (gmap string ExploredItem).

Inductive DbFault := DbOk | OpenFails | RequestFails.

(** [store.put(item)]: adds the item, or replaces the one with its id. *)
Definition put (item : ExploredItem) (store : Store) : Store :=
  <[id item := item]> store.

(** The error of [openDB] is caught and only logged; the error of the
    request rejects the returned promise. *)
Definition saveExploration (fault : DbFault) (item : ExploredItem)
  (store : Store) : Store * Outcome unit :=
  match fault with
  | DbOk => (put item store, Return tt)
  | OpenFails => (store, Return tt)
  | RequestFails => (store, Throw "request error")
  end.

(** A value handed to the bulk save: an item, or a value from which no
    valid key can be taken at the key path 'id' (it is no object, has no
    'id', or an 'id' that is no key). The array of an import is not
    validated, so both occur. *)
Inductive Entry :=
  | Item (item : ExploredItem)
  | Unkeyed.

(** [items.forEach(item => { store.put(item); })]: [put] throws on a value
    without a key, which ends the loop; the requests made before it stay
    in the transaction. *)
Fixpoint put_each (entries : list Entry) (store : Store)
  : Store * Outcome unit :=
  match entries with
  | [] => (store, Return tt)
  | Item item :: rest => put_each rest (put item store)
  | Unkeyed :: _ => (store, Throw "DataError")
  end.

(** The error of [openDB] is rethrown. An exception of [put] rejects the
    promise, and the transaction, which nothing aborts, commits the
    requests made before it. An error of the transaction rolls every
    request back. *)
Definition bulkSaveExplorations (fault : DbFault) (entries : list Entry)
  (store : Store) : Store * Outcome unit :=
  match fault with
  | DbOk => put_each entries store
  | OpenFails => (store, Throw "open error")
  | RequestFails => (store, Throw "transaction error")
  end.

Definition deleteExploration (fault : DbFault) (target : string)
  (store : Store) : Store * Outcome unit :=
  match fault with
  | DbOk => (delete target store, Return tt)
  | OpenFails => (store, Throw "open error")
  | RequestFails => (store, Throw "request error")
  end.

(** [store.getAll()]: the stored items, in the order of their keys. *)
Definition getAll (store : Store) : list ExploredItem :=
  (merge_sort (λ a b : string * ExploredItem, String.le a.1 b.1)
     (map_to_list store)).*2.

(** One step of the sort by [(a, b) => b.timestamp - a.timestamp]: the item
    goes in front of the sorted items, and past those with a greater
    timestamp only (the sort is stable). *)
Fixpoint insert_newest (x : ExploredItem) (sorted : list ExploredItem)
  : list ExploredItem :=
  match sorted with
  | [] => [x]
  | y :: rest =>
      if (timestamp x <? timestamp y)%Z then y :: insert_newest x rest
      else x :: sorted
  end.

Definition sort_newest_first (items : list ExploredItem) : list ExploredItem :=
  foldr insert_newest [] items.

(** When the database cannot be opened the result is the empty list. *)
Definition getAllExplorations (fault : DbFault) (store : Store)
  : Outcome (list ExploredItem) :=
  match fault with
  | DbOk => Return (sort_newest_first (getAll store))
  | OpenFails => Return []
  | RequestFails => Throw "request error"
  end.

(** ** The provider functions that use the database

    Each returns the store it leaves, the actions it dispatched and the
    alerts it showed. *)

Record Reaction := mkReaction {
  stored : Store;
  dispatched : list ExploreAction;
  alerted : list string
}.

Definition removeExploration (fault : DbFault) (state : AppState)
  (target : string) (store : Store) : Reaction :=
  match deleteExploration fault target store with
  | (store', Return _) =>
      {| stored := store';
         dispatched :=
           REMOVE_FROM_COLLECTION target
           :: match history state with
              | activeRoot :: _ =>
                  if String.eqb (id activeRoot) target then [RESET] else []
              | [] => []
              end;
         alerted := [] |}
  | (store', Throw _) =>
      {| stored := store'; dispatched := [];
         alerted := ["Failed to delete item from database."] |}
  end.

(** [parsed] is what [JSON.parse(await file.text())] yields: nothing when
    reading or parsing fails, and otherwise the array, if it is one. The
    entries of the array that have a key are taken to be items, as the type
    annotation of the source has it. *)
Definition importDatabase (parsed : Reply (option (list Entry)))
  (saveFault loadFault : DbFault) (store : Store) : Reaction :=
  let failed (store' : Store) :=
    {| stored := store'; dispatched := [];
       alerted := ["Failed to import database. Check file format."] |} in
  match parsed with
  | Fails => failed store
  | Replies None => failed store
  | Replies (Some items) =>
      match bulkSaveExplorations saveFault items store with
      | (store', Throw _) => failed store'
      | (store', Return _) =>
          match getAllExplorations loadFault store' with
          | Throw _ => failed store'
          | Return updatedCollection =>
              {| stored := store';
                 dispatched := [INIT_COLLECTION updatedCollection];
                 alerted := ["Database imported successfully."] |}
          end
      end
  end.

(** The effect run when the provider mounts. *)
Definition initDB (fault : DbFault) (store : Store) : Reaction :=
  match getAllExplorations fault store with
  | Return items =>
      {| stored := store; dispatched := [INIT_COLLECTION items]; alerted := [] |}
  | Throw _ => {| stored := store; dispatched := []; alerted := [] |}
  end.

(** ** Vocabulary of the statements *)

(** All nodes of a tree, the root first. *)
Fixpoint nodes (root : ExploredItem) : list ExploredItem :=
  root :: match children root with
          | Some cs => cs ≫= nodes
          | None => []
          end.

(** Some node of the tree carries the identifier. *)
Definition occurs (targetId : string) (root : ExploredItem) : Prop :=
  ∃ n, n ∈ nodes root ∧ id n = targetId.

(** Every consecutive pair of the list is a parent followed by one of its
    children. *)
Fixpoint linked (path : list ExploredItem) : Prop :=
  match path with
  | parent :: (child :: _) as rest => child ∈ kids parent ∧ linked rest
  | _ => True
  end.

(** The identifiers of a tree, without its other contents. *)
#[warnings="-register-all"] Inductive IdTree := IdNode (i : string) (subtrees : list IdTree).

Fixpoint id_structure (root : ExploredItem) : IdTree :=
  IdNode (id root)
    match children root with
    | Some cs => map id_structure cs
    | None => []
    end.

(** Every node of the tree has children with pairwise distinct identifiers. *)
#[warnings="-register-all"] Inductive distinct_children : ExploredItem → Prop :=
  | distinct_children_node it :
      NoDup (id <$> kids it) →
      Forall distinct_children (kids it) →
      distinct_children it.

(** All three views of a bundle are there. *)
Definition populated (imgs : ItemImages) : bool :=
  Js.truthy_opt (assembled imgs) && Js.truthy_opt (cutaway imgs)
  && Js.truthy (exploded imgs).

(** The items a trace commits to the session. *)
Definition committed (trace : list ExploreAction) : list ExploredItem :=
  omap (fun action =>
          match action with
          | UPDATE_SESSION item _ _ => Some item
          | _ => None
          end) trace.

(** The statuses a trace exposes, in order. *)
Definition statuses (trace : list ExploreAction) : list GenerationStatus :=
  omap (fun action =>
          match action with
          | SET_STATUS st => Some st
          | _ => None
          end) trace.


(** *** The values the pipeline computes, by name

    The following definitions name the intermediate values of [pipeline];
    [pipeline_eq] below shows that the pipeline computes exactly these. *)

Definition analyzing_status (query : string) : GenerationStatus :=
  {| isGenerating := true; stage := analyzing;
     message := Some ("Analyzing structure of " +:+ query +:+ "...");
     currentFacts := None |}.

Definition rendering_status (state : AppState) (structure : StructureAnalysis)
  : GenerationStatus :=
  {| isGenerating := true; stage := rendering_assembled;
     message := Some (match generationMode state with
                      | full => "Constructing base model..."
                      | fast => "Generating schematic..."
                      end);
     currentFacts := Some (s_facts structure) |}.

Definition scanning_status (structure : StructureAnalysis) : GenerationStatus :=
  {| isGenerating := true; stage := scanning;
     message := Some "Calibrating component locations...";
     currentFacts := Some (s_facts structure) |}.

Section PipelineValues.
Context `{platform : Js.Text}.
Variables (env : Env) (state : AppState) (query : string)
  (parent referenceImage : option string) (structure : StructureAnalysis).

Definition effectiveName : string :=
  if Js.truthy_opt parent then contextQuery state query parent
  else s_name structure.

Definition generatedImages : option ItemImages :=
  generateVisualAssets env effectiveName (s_partNames structure)
    (generationMode state) referenceImage (generationOptions state).

Definition finalParts : list ItemPart :=
  match explodedOf generatedImages with
  | Some explodedImage =>
      detectPartCoordinates env explodedImage (s_partNames structure)
  | None => fallbackParts env (s_partNames structure)
  end.

(** The statuses up to the point where the item is compiled. *)
Definition progress : list ExploreAction :=
  [SET_STATUS (analyzing_status query);
   SET_STATUS (rendering_status state structure)]
  ++ match explodedOf generatedImages with
     | Some _ => [SET_STATUS (scanning_status structure)]
     | None => []
     end.

(** [parent ? state.history[0].id : structure.id], which has no value
    when the history is empty. *)
Definition rootIdValue : option string :=
  if Js.truthy_opt parent then id <$> head (history state)
  else Some (s_id structure).

Definition completeItem (rootIdent : string) : ExploredItem :=
  {| id := s_id structure;
     name := effectiveName;
     category := s_category structure;
     description := s_description structure;
     parts := finalParts;
     images := generatedImages;
     rootId := rootIdent;
     parentId := parent;
     depth := match (if Js.truthy_opt parent then currentItem state else None) with
              | Some cur => (depth cur + 1)%Z
              | None => 0%Z
              end;
     timestamp := clock env AtCompile;
     children := Some [];
     facts := Some (s_facts structure);
     characteristics := Some (s_characteristics structure) |}.

Definition newRoot (item : ExploredItem) : ExploredItem :=
  match (if Js.truthy_opt parent then parent else None), history state with
  | Some pid, currentRoot :: _ => updateItemInTree currentRoot pid item
  | _, _ => item
  end.

Definition newHistory (item : ExploredItem) : list ExploredItem :=
  match (if Js.truthy_opt parent then parent else None), history state with
  | Some pid, currentRoot :: _ =>
      default [newRoot item; item] (findPathToNode (newRoot item) (id item))
  | _, _ => [item]
  end.

End PipelineValues.

(** The request is neither rejected by the in-flight guard, nor answered
    from memory, nor blocked offline: it reaches the pipeline. *)
Definition reaches_pipeline `{platform : Js.Text} (state : AppState) (query : string)
  (parent : option string) : Prop :=
  isGenerating (status state) = false
  ∧ existingChild state query parent = None
  ∧ isOffline state = false.

(** *** The deduplication of the lineage, from the end

    [blank_if_implied x later] puts the name [x] in front of the already
    treated names [later], blanked when the name that follows it contains
    it, both lower-cased. *)
Definition blank_if_implied `{platform : Js.Text} (x : string)
  (later : list string) : list string :=
  match later with
  | [] => [x]
  | y :: _ =>
      (if Js.includes (Js.toLowerCase y) (Js.toLowerCase x) then "" else x)
      :: later
  end.

Definition dedup_from_end `{platform : Js.Text} (names : list string) : list string :=
  foldr blank_if_implied [] names.


(** An action that only sets the status. *)
Definition sets_status (action : ExploreAction) : Prop :=
  ∃ st, action = SET_STATUS st.

(** *** Well-formed sessions

    The history ends at the current item (so it is empty exactly when there
    is none) and is a chain of parents and children. *)
Definition session_ok (state : AppState) : Prop :=
  last (history state) = currentItem state ∧ linked (history state).

(** What an action must carry for the session to stay well formed: only the
    payload of UPDATE_SESSION is taken on trust by the reducer. *)
Definition payload_ok (action : ExploreAction) : Prop :=
  match action with
  | UPDATE_SESSION item path _ => last path = Some item ∧ linked path
  | _ => True
  end.

(** The character occurs in the string. *)
Fixpoint has_char (c : ascii) (s : string) : bool :=
  match s with
  | EmptyString => false
  | String a t => Ascii.eqb a c || has_char c t
  end.

(** The sequences of stages a request can expose, from its first status to
    its last. *)
Definition stage_sequences : list (list Stage) :=
  [ [];
    [error];
    [analyzing; error];
    [analyzing; rendering_assembled; error];
    [analyzing; rendering_assembled; scanning; error];
    [analyzing; rendering_assembled; complete];
    [analyzing; rendering_assembled; scanning; complete] ].

(** *** Stores

    Every item is stored under its own identifier: what [put] under the key
    path 'id' maintains. *)
Definition keyed (store : Store) : Prop :=
  ∀ k x, store !! k = Some x → id x = k.

(** The timestamps never increase along the list. *)
Definition newest_first (items : list ExploredItem) : Prop :=
  StronglySorted (λ a b, (timestamp b ≤ timestamp a)%Z) items.

(** The last item of the list with the given identifier. *)
Definition last_with_id (k : string) (items : list ExploredItem)
  : option ExploredItem :=
  List.find (λ x, String.eqb (id x) k) (reverse items).

(** The settings of the application: what no request touches. *)
Definition settings (state : AppState)
  : GenerationMode * GenerationOptions * bool * bool :=
  (generationMode state, generationOptions state, isConfigured state,
   isOffline state).

(** The actions a request dispatches. *)
Definition request_action (action : ExploreAction) : Prop :=
  match action with
  | SET_STATUS _ | NAVIGATE_TO _ | UPDATE_SESSION _ _ _ => True
  | _ => False
  end.

(** ** Concrete sessions used by the examples *)

Module Sample.

Definition node (i n : string) (d : Z) (cs : option (list ExploredItem))
  : ExploredItem :=
  {| id := i; rootId := "1"; name := n; category := "Food"; description := "";
     images := None; parts := []; facts := None; characteristics := None;
     parentId := None; children := cs; depth := d; timestamp := 0 |}.

Definition seed : ExploredItem := node "2" "Avocado Seed" 1 None.
Definition skin : ExploredItem := node "3" "Skin" 1 (Some []).
Definition pit : ExploredItem := node "4" "Pit" 1 None.
Definition avocado : ExploredItem := node "1" "Avocado" 0 (Some [seed; skin]).

(** A session that views the avocado root. *)
Definition session (mode : GenerationMode) (offline : bool) : AppState :=
  {| currentItem := Some avocado;
     history := [avocado];
     collection := [avocado];
     status := idle_status;
     generationMode := mode;
     generationOptions := generationOptions initialState;
     isConfigured := true;
     isOffline := offline |}.

Definition data : AnalysisData :=
  {| data_name := Some "Hass Avocado";
     data_category := Some "Food";
     data_description := None;
     data_partNames := Some ["Skin"; "Flesh"; "Seed"];
     data_facts := Some ["Avocados are berries."];
     data_characteristics := None |}.

(** A configured service with the given analysis, image and scan replies. *)
Definition env (analysis : Reply AnalysisData)
  (img : ImageRequest → Reply (list (option string)))
  (scan : Reply (list ScanEntry)) : Env :=
  {| apiKey := "key";
     identify_reply := Replies (Some "Avocado");
     analysis_reply := analysis;
     image_reply := img;
     scan_reply := scan;
     clock := fun _ => 1700%Z |}.

Definition no_image : ImageRequest → Reply (list (option string)) :=
  fun _ => Fails.

Definition every_image : ImageRequest → Reply (list (option string)) :=
  fun _ => Replies [None; Some "AAAA"].

(** Only the assembled view can be generated. *)
Definition assembled_only (request : ImageRequest)
  : Reply (list (option string)) :=
  match request with
  | AssembledView => Replies [Some "AAAA"]
  | _ => Fails
  end.

(** The four services used below: everything works but the images; but the
    scan; but the analysis; nothing works. *)
Definition env_no_images : Env := env (Replies data) no_image Fails.
Definition env_no_scan : Env := env (Replies data) every_image Fails.
Definition env_down : Env := env Fails no_image Fails.
Definition env_assembled_only : Env := env Fails assembled_only Fails.

Definition fast_session : AppState := session fast false.
Definition full_session : AppState := session full false.
Definition offline_session : AppState := session full true.

(** An idle full-mode session that views the given root. *)
Definition viewing (root : ExploredItem) : AppState :=
  {| currentItem := Some root;
     history := [root];
     collection := [root];
     status := idle_status;
     generationMode := full;
     generationOptions := generationOptions initialState;
     isConfigured := true;
     isOffline := false |}.

(** The avocado before its seed was explored. *)
Definition fresh_avocado : ExploredItem := node "1" "Avocado" 0 (Some [skin]).
Definition fresh_session : AppState := viewing fresh_avocado.

(** A session that views the seed, below the avocado. *)
Definition seed_session : AppState :=
  {| currentItem := Some seed;
     history := [avocado; seed];
     collection := [avocado];
     status := idle_status;
     generationMode := full;
     generationOptions := generationOptions initialState;
     isConfigured := true;
     isOffline := false |}.

(** The session on the avocado while a generation is in flight. *)
Definition busy_session : AppState :=
  {| currentItem := Some avocado;
     history := [avocado];
     collection := [avocado];
     status := {| isGenerating := true; stage := analyzing; message := None;
                  currentFacts := None |};
     generationMode := full;
     generationOptions := generationOptions initialState;
     isConfigured := true;
     isOffline := false |}.

(** A tree in which the identifier of the seed is also carried by a node
    that comes before it. *)
Definition wax : ExploredItem := node "2" "Wax" 2 None.
Definition waxed_skin : ExploredItem := node "3" "Skin" 1 (Some [wax]).
Definition twin_avocado : ExploredItem :=
  node "1" "Avocado" 0 (Some [waxed_skin; seed]).
Definition twin_session : AppState := viewing twin_avocado.

End Sample.

(** ** Further concrete inputs *)

Module SampleMore.

(** A service without a key. *)
Definition env_no_key : Env :=
  {| apiKey := "";
     identify_reply := Replies (Some "Avocado");
     analysis_reply := Replies Sample.data;
     image_reply := Sample.every_image;
     scan_reply := Replies [];
     clock := fun _ => 1700%Z |}.

(** A service where everything works; the scan finds two parts. *)
Definition env_ok : Env :=
  Sample.env (Replies Sample.data) Sample.every_image
    (Replies [mkScanEntry "Skin" "Dark green peel." 20 30;
              mkScanEntry "Seed" "Round brown stone." 50 55]).

(** Roots with a creation time. *)
Definition stamped (i n : string) (t : Z) : ExploredItem :=
  {| id := i; rootId := i; name := n; category := "Food"; description := "";
     images := None; parts := []; facts := None; characteristics := None;
     parentId := None; children := Some []; depth := 0; timestamp := t |}.

Definition apple : ExploredItem := stamped "a" "Apple" 10.
Definition banana : ExploredItem := stamped "b" "Banana" 30.
Definition cherry : ExploredItem := stamped "c" "Cherry" 20.
Definition green_apple : ExploredItem := stamped "a" "Green Apple" 40.

(** A store with three roots. *)
Definition shelf : Store := put cherry (put banana (put apple ∅)).

(** A session that views the banana, with the three roots in the collection. *)
Definition shelf_session : AppState :=
  {| currentItem := Some banana;
     history := [banana];
     collection := [banana; cherry; apple];
     status := idle_status;
     generationMode := full;
     generationOptions := generationOptions initialState;
     isConfigured := true;
     isOffline := false |}.

End SampleMore.

(** * Properties of the tree helpers *)

Section PathLookup.

Lemma findPathToNode_eq root targetId :
  findPathToNode root targetId =
    if String.eqb (id root) targetId then Some [root]
    else match first_path (fun child => findPathToNode child targetId) (kids root) with
         | Some path => Some (root :: path)
         | None => None
         end.
Proof.
  destruct root as [i r n c d im p f ch pa [cs|] de ti]; simpl;
    destruct (String.eqb i targetId); reflexivity.
Qed.

Lemma nodes_eq root : nodes root = root :: (kids root ≫= nodes).
Proof. destruct root as [i r n c d im p f ch pa [cs|] de ti]; reflexivity. Qed.

Lemma first_path_Some find cs path :
  first_path find cs = Some path → ∃ c, c ∈ cs ∧ find c = Some path.
Proof.
  induction cs as [|c cs IH]; simpl; [discriminate|].
  destruct (find c) as [p|] eqn:Hc.
  - intros [= <-]. exists c. split; [left | done].
  - intros H. destruct (IH H) as (c' & Hin & Hf).
    exists c'. split; [by right | done].
Qed.

Lemma first_path_None find cs :
  first_path find cs = None ↔ ∀ c, c ∈ cs → find c = None.
Proof.
  induction cs as [|c cs IH]; simpl.
  - split; [intros _ c Hc; by apply elem_of_nil in Hc | done].
  - destruct (find c) as [p|] eqn:Hc.
    + split; [discriminate|]. intros H.
      specialize (H c (list_elem_of_here _ _)). congruence.
    + rewrite IH. split.
      * intros H c' [->|Hin]%elem_of_cons; auto.
      * intros H c' Hin. apply H. by right.
Qed.

Lemma root_in_nodes root : root ∈ nodes root.
Proof. rewrite nodes_eq. left. Qed.

Lemma child_nodes parent child n :
  child ∈ kids parent → n ∈ nodes child → n ∈ nodes parent.
Proof.
  intros Hc Hn. rewrite nodes_eq. right.
  apply list_elem_of_bind. eauto.
Qed.

(** What a found path looks like. *)
Lemma findPathToNode_sound targetId root :
  ∀ path, findPathToNode root targetId = Some path →
    head path = Some root
    ∧ (∃ target, last path = Some target ∧ id target = targetId)
    ∧ linked path
    ∧ (∀ n, n ∈ path → n ∈ nodes root).
Proof.
  induction root as [root IH] using ExploredItem_tree_ind.
  intros path. rewrite findPathToNode_eq.
  destruct (String.eqb (id root) targetId) eqn:Heq.
  - intros [= <-]. apply String.eqb_eq in Heq.
    repeat split; simpl; eauto.
    intros n ->%list_elem_of_singleton. apply root_in_nodes.
  - destruct (first_path _ (kids root)) as [sub|] eqn:Hsub; [|discriminate].
    intros [= <-].
    apply first_path_Some in Hsub as (c & Hin & Hc).
    rewrite Forall_forall in IH.
    destruct (IH c Hin sub Hc) as (Hhead & (t & Hlast & Hid) & Hlinked & Hnodes).
    destruct sub as [|c' sub]; [discriminate|].
    injection Hhead as ->.
    repeat split; simpl; auto.
    + exists t. split; done.
    + intros n [->|Hn]%elem_of_cons; [apply root_in_nodes|].
      eapply child_nodes; eauto.
Qed.

(** A lookup fails exactly on the identifiers that do not occur. *)
Lemma findPathToNode_None targetId root :
  findPathToNode root targetId = None ↔ ¬ occurs targetId root.
Proof.
  induction root as [root IH] using ExploredItem_tree_ind.
  rewrite Forall_forall in IH.
  rewrite findPathToNode_eq. unfold occurs.
  destruct (String.eqb (id root) targetId) eqn:Heq.
  - apply String.eqb_eq in Heq. split; [discriminate|].
    intros H. exfalso. apply H. exists root. split; [apply root_in_nodes | done].
  - apply String.eqb_neq in Heq.
    destruct (first_path _ (kids root)) as [sub|] eqn:Hsub.
    + split; [discriminate|]. intros H. exfalso. apply H.
      apply first_path_Some in Hsub as (c & Hin & Hc).
      destruct (findPathToNode_sound _ _ _ Hc) as (_ & (t & Hlast & Hid) & _ & Hn).
      exists t. split; [|done].
      eapply child_nodes; [done|]. apply Hn.
      apply last_Some in Hlast as [l' ->]. apply elem_of_app. right. left.
    + split; [|done]. intros _ (n & Hn & Hid).
      rewrite nodes_eq in Hn. apply elem_of_cons in Hn as [->|Hn]; [done|].
      apply list_elem_of_bind in Hn as (c & Hn & Hin).
      rewrite first_path_None in Hsub.
      specialize (Hsub c Hin). apply (IH c Hin) in Hsub.
      apply Hsub. by exists n.
Qed.

End PathLookup.

(** C8. On every tree, [findPathToNode root targetId] returns a chain that
    starts at [root], ends at a node whose identifier is [targetId] and
    whose consecutive elements are parent and child; it returns nothing
    exactly when no node of the tree carries [targetId]. *)
Theorem findPathToNode_correct (root : ExploredItem) (targetId : string) :
  (∀ path, findPathToNode root targetId = Some path →
     head path = Some root
     ∧ (∃ target, last path = Some target ∧ id target = targetId)
     ∧ linked path)
  ∧ (findPathToNode root targetId = None ↔ ¬ occurs targetId root)
  ∧ (occurs targetId root ↔ ∃ path, findPathToNode root targetId = Some path).
Proof.
  split; [|split].
  - intros path H. destruct (findPathToNode_sound _ _ _ H) as (? & ? & ? & _).
    done.
  - apply findPathToNode_None.
  - pose proof (findPathToNode_None targetId root) as Hnone.
    destruct (findPathToNode root targetId) as [path|] eqn:Hfind.
    + split; [eauto|]. intros _.
      destruct (findPathToNode_sound _ _ _ Hfind) as (_ & (t & Hlast & Hid) & _ & Hn).
      exists t. split; [|done]. apply Hn.
      apply last_Some in Hlast as [l' ->]. apply elem_of_app. right. left.
    + split; [|intros [? ?]; discriminate].
      intros Hocc. by apply Hnone in Hocc.
Qed.

(** * The NAVIGATE_TO transition *)

(** C10. A NAVIGATE_TO request leaves the whole application state as it was
    when the history is empty or when the target identifier does not occur
    in the tree of the active root. *)
Theorem navigate_missing_target_is_noop (state : AppState) (targetId : string) :
  history state = []
  ∨ (∃ root, head (history state) = Some root ∧ ¬ occurs targetId root) →
  reducer state (NAVIGATE_TO targetId) = state.
Proof.
  intros [Hempty | (root & Hroot & Habsent)]; simpl.
  - by rewrite Hempty.
  - destruct (history state) as [|r rest]; [done|].
    injection Hroot as ->.
    apply findPathToNode_None in Habsent. by rewrite Habsent.
Qed.

Lemma navigate_missing_target_is_noop_witness :
  reducer initialState (NAVIGATE_TO "1") = initialState
  ∧ reducer Sample.full_session (NAVIGATE_TO "9") = Sample.full_session.
Proof.
  split.
  - apply navigate_missing_target_is_noop. left. reflexivity.
  - apply navigate_missing_target_is_noop. right.
    exists Sample.avocado. split; [reflexivity|].
    apply findPathToNode_None. reflexivity.
Defined.

(** * Attaching a child *)

Section Attach.
Variables (targetId : string) (newChild : ExploredItem).

Let attach (root : ExploredItem) : ExploredItem :=
  updateItemInTree root targetId newChild.

Lemma updateItemInTree_eq root :
  attach root =
    if String.eqb (id root) targetId then
      with_children root
        (if has_id (id newChild) (kids root) then kids root
         else kids root ++ [newChild])
    else
      match children root with
      | Some cs => with_children root (map attach cs)
      | None => root
      end.
Proof.
  destruct root as [i r n c d im p f ch pa [cs|] de ti]; reflexivity.
Qed.

Lemma id_attach root : id (attach root) = id root.
Proof.
  rewrite updateItemInTree_eq.
  destruct (String.eqb (id root) targetId); [done|].
  by destruct (children root).
Qed.

Lemma kids_with_children root cs : kids (with_children root cs) = cs.
Proof. reflexivity. Qed.

Lemma with_children_twice root cs cs' :
  with_children (with_children root cs) cs' = with_children root cs'.
Proof. reflexivity. Qed.

Lemma has_id_spec i cs : has_id i cs = true ↔ i ∈ id <$> cs.
Proof.
  unfold has_id. rewrite existsb_exists, list_elem_of_fmap.
  split.
  - intros (c & Hin & Heq). apply String.eqb_eq in Heq.
    exists c. split; [done | by apply list_elem_of_In].
  - intros (c & -> & Hin). exists c.
    split; [by apply list_elem_of_In | apply String.eqb_refl].
Qed.

Lemma has_id_after root :
  has_id (id newChild)
    (if has_id (id newChild) (kids root) then kids root
     else kids root ++ [newChild]) = true.
Proof.
  destruct (has_id (id newChild) (kids root)) eqn:Hex; [done|].
  apply has_id_spec. rewrite fmap_app. apply elem_of_app. right. left.
Qed.

(** Attaching again changes nothing at all. *)
Lemma attach_twice root : attach (attach root) = attach root.
Proof.
  induction root as [root IH] using ExploredItem_tree_ind.
  rewrite (updateItemInTree_eq root).
  destruct (String.eqb (id root) targetId) eqn:Heq.
  - pose proof (has_id_after root) as Hafter.
    set (cs' := if has_id (id newChild) (kids root) then kids root
                else kids root ++ [newChild]) in *.
    rewrite updateItemInTree_eq.
    change (id (with_children root cs')) with (id root).
    change (kids (with_children root cs')) with cs'.
    by rewrite Heq, Hafter.
  - destruct (children root) as [cs|] eqn:Hcs.
    + rewrite updateItemInTree_eq.
      change (id (with_children root (map attach cs))) with (id root).
      change (children (with_children root (map attach cs)))
        with (Some (map attach cs)).
      rewrite Heq, with_children_twice. f_equal.
      unfold kids in IH. rewrite Hcs in IH. simpl in IH.
      rewrite map_map. apply map_ext_Forall. exact IH.
    + rewrite updateItemInTree_eq, Heq, Hcs. done.
Qed.

Lemma distinct_children_inv it :
  distinct_children it →
  NoDup (id <$> kids it) ∧ Forall distinct_children (kids it).
Proof. by inversion 1. Qed.

(** Attaching never makes two children of one node share an identifier. *)
Lemma attach_distinct root :
  distinct_children newChild →
  distinct_children root → distinct_children (attach root).
Proof.
  intros Hnew.
  induction root as [root IH] using ExploredItem_tree_ind.
  intros [Hnd Hall]%distinct_children_inv.
  rewrite updateItemInTree_eq.
  destruct (String.eqb (id root) targetId) eqn:Heq.
  - constructor; rewrite kids_with_children.
    + destruct (has_id (id newChild) (kids root)) eqn:Hex; [done|].
      rewrite fmap_app. apply NoDup_app. split; [done|]. split.
      * intros i Hi ->%list_elem_of_singleton.
        apply has_id_spec in Hi. congruence.
      * apply NoDup_singleton.
    + destruct (has_id (id newChild) (kids root)); [done|].
      apply Forall_app. split; [done|]. by apply Forall_singleton.
  - destruct (children root) as [cs|] eqn:Hcs; [|by constructor].
    unfold kids in *. rewrite Hcs in *. simpl in *.
    constructor; rewrite kids_with_children.
    + replace (id <$> map attach cs) with (id <$> cs); [done|].
      clear. induction cs as [|c cs IHcs]; [done|].
      simpl. rewrite id_attach. by f_equal.
    + apply Forall_fmap. rewrite Forall_forall in *.
      intros c Hc. simpl. auto.
Qed.

End Attach.

(** C7. Attaching a child under a parent is idempotent: a second attachment
    of the same child leaves the identifier structure of the tree as the
    first one made it; attaching under a parent that already has a child
    with that identifier changes no identifier at all; and an attachment
    never gives a node two children with the same identifier. *)
Theorem updateItemInTree_idempotent (root : ExploredItem) (parentId : string)
  (child : ExploredItem) :
  id_structure (updateItemInTree (updateItemInTree root parentId child) parentId child)
  = id_structure (updateItemInTree root parentId child)
  ∧ (id root = parentId → has_id (id child) (kids root) = true →
     id_structure (updateItemInTree root parentId child) = id_structure root)
  ∧ (distinct_children child → distinct_children root →
     distinct_children (updateItemInTree root parentId child)).
Proof.
  split; [|split].
  - by rewrite attach_twice.
  - intros Hid Hhas. rewrite updateItemInTree_eq.
    apply String.eqb_eq in Hid. rewrite Hid, Hhas.
    destruct root as [i r n c d im p f ch pa [cs|] de ti]; [reflexivity|].
    discriminate.
  - apply attach_distinct.
Qed.

Lemma updateItemInTree_idempotent_witness :
  id_structure
    (updateItemInTree (updateItemInTree Sample.avocado "1" Sample.pit) "1" Sample.pit)
  = id_structure (updateItemInTree Sample.avocado "1" Sample.pit)
  ∧ id_structure (updateItemInTree Sample.avocado "1" Sample.seed)
    = id_structure Sample.avocado
  ∧ distinct_children (updateItemInTree Sample.avocado "1" Sample.pit).
Proof.
  destruct (updateItemInTree_idempotent Sample.avocado "1" Sample.pit)
    as (Hsame & _ & Hdistinct).
  destruct (updateItemInTree_idempotent Sample.avocado "1" Sample.seed)
    as (_ & Hnoop & _).
  split; [exact Hsame|]. split; [exact (Hnoop eq_refl eq_refl)|].
  apply Hdistinct.
  - constructor; constructor.
  - constructor.
    + apply (bool_decide_unpack _). vm_compute. exact I.
    + repeat constructor.
Defined.

(** * Image synthesis *)

Section Synthesis.
Context `{platform : Js.Text}.
Variable env : Env.

Lemma first_inline_truthy ps img :
  first_inline ps = Some img → Js.truthy img = true.
Proof.
  induction ps as [|[data|] ps IH]; simpl; [discriminate| |exact IH].
  intros [= <-]. reflexivity.
Qed.

(** A generated image is never the empty string. *)
Lemma generateImage_truthy request img :
  generateImage env request = Some img → Js.truthy img = true.
Proof.
  unfold generateImage.
  destruct (negb (Js.truthy (apiKey env))); [discriminate|].
  destruct (image_reply env request) as [|ps]; [discriminate|].
  apply first_inline_truthy.
Qed.

Lemma generateImage_truthy_opt request :
  Js.truthy_opt (generateImage env request)
  = bool_decide (is_Some (generateImage env request)).
Proof.
  destruct (generateImage env request) as [img|] eqn:Himg; simpl.
  - by rewrite (generateImage_truthy _ _ Himg).
  - reflexivity.
Qed.

Lemma or_else_generated request fallback :
  Js.or_else (generateImage env request) fallback
  = default fallback (generateImage env request).
Proof.
  destruct (generateImage env request) as [img|] eqn:Himg; simpl; [|done].
  by rewrite (generateImage_truthy _ _ Himg).
Qed.

(** Without a key no image is generated, so the two key tests of
    [generateVisualAssets] agree. *)
Lemma generateImage_no_key request :
  Js.truthy (apiKey env) = false → generateImage env request = None.
Proof. unfold generateImage. by intros ->. Qed.

Lemma generateVisualAssets_fast subject partNames ref options :
  generateVisualAssets env subject partNames fast ref options =
    match generateImage env FastExploded with
    | Some img => Some {| assembled := None; cutaway := None; exploded := img |}
    | None => None
    end.
Proof.
  unfold generateVisualAssets.
  destruct (Js.truthy (apiKey env)) eqn:Hkey; simpl.
  - rewrite generateImage_truthy_opt.
    by destruct (generateImage env FastExploded).
  - by rewrite generateImage_no_key.
Qed.

Lemma generateVisualAssets_full subject partNames ref options :
  generateVisualAssets env subject partNames full ref options =
    match generateImage env AssembledView with
    | Some base =>
        Some {| assembled := Some base;
                cutaway := Some (default base (generateImage env CutawayView));
                exploded := default base (generateImage env ExplodedWithRef) |}
    | None => None
    end.
Proof.
  unfold generateVisualAssets.
  destruct (Js.truthy (apiKey env)) eqn:Hkey; simpl.
  - rewrite generateImage_truthy_opt, !or_else_generated.
    by destruct (generateImage env AssembledView).
  - by rewrite generateImage_no_key.
Qed.

(** Whatever bundle the synthesis returns has a non-empty exploded view. *)
Lemma generateVisualAssets_exploded subject partNames mode ref options imgs :
  generateVisualAssets env subject partNames mode ref options = Some imgs →
  Js.truthy (exploded imgs) = true.
Proof.
  destruct mode.
  - rewrite generateVisualAssets_fast.
    destruct (generateImage env FastExploded) as [img|] eqn:Himg; [|discriminate].
    intros [= <-]. simpl. by eapply generateImage_truthy.
  - rewrite generateVisualAssets_full.
    destruct (generateImage env AssembledView) as [base|] eqn:Hbase; [|discriminate].
    intros [= <-]. simpl.
    destruct (generateImage env ExplodedWithRef) eqn:Hexp; simpl;
      by eapply generateImage_truthy.
Qed.

End Synthesis.

(** C6. In full mode the synthesis returns no bundle at all when the
    assembled view cannot be generated; when it can, the bundle holds the
    assembled view and, for the cutaway and the exploded view, the generated
    image or, where that generation failed, the assembled image: all three
    views are populated. *)
Theorem full_mode_all_or_nothing (env : Env) (subject : string)
  (partNames : list string) (ref : option string) (options : GenerationOptions) :
  let result := generateVisualAssets env subject partNames full ref options in
  (generateImage env AssembledView = None → result = None)
  ∧ (∀ base, generateImage env AssembledView = Some base →
       ∃ imgs, result = Some imgs
         ∧ assembled imgs = Some base
         ∧ cutaway imgs = Some (default base (generateImage env CutawayView))
         ∧ exploded imgs = default base (generateImage env ExplodedWithRef)
         ∧ (generateImage env CutawayView = None → cutaway imgs = Some base)
         ∧ (generateImage env ExplodedWithRef = None → exploded imgs = base))
  ∧ (∀ imgs, result = Some imgs → populated imgs = true).
Proof.
  intros result. subst result. rewrite generateVisualAssets_full.
  split; [|split].
  - by intros ->.
  - intros base ->. eexists. split; [reflexivity|]. simpl.
    repeat split; by intros ->.
  - destruct (generateImage env AssembledView) as [base|] eqn:Hbase; [|discriminate].
    intros imgs [= <-]. unfold populated. simpl.
    rewrite (generateImage_truthy _ _ _ Hbase). simpl.
    destruct (generateImage env CutawayView) eqn:Hcut,
             (generateImage env ExplodedWithRef) eqn:Hexp; simpl;
      repeat match goal with
             | H : generateImage _ _ = Some _ |- _ =>
                 rewrite (generateImage_truthy _ _ _ H); clear H
             end; reflexivity.
Qed.

Lemma full_mode_all_or_nothing_witness :
  generateVisualAssets Sample.env_down
    "Avocado" ["Skin"] full None (generationOptions initialState) = None
  ∧ (∃ imgs,
       generateVisualAssets Sample.env_assembled_only
         "Avocado" ["Skin"] full None (generationOptions initialState) = Some imgs
       ∧ cutaway imgs = Some "data:image/png;base64,AAAA"
       ∧ exploded imgs = "data:image/png;base64,AAAA"
       ∧ populated imgs = true).
Proof.
  split.
  - apply (full_mode_all_or_nothing Sample.env_down). reflexivity.
  - destruct (full_mode_all_or_nothing Sample.env_assembled_only
                "Avocado" ["Skin"] None (generationOptions initialState))
      as (_ & Hsome & Hall).
    destruct (Hsome "data:image/png;base64,AAAA" eq_refl)
      as (imgs & Hres & _ & _ & _ & Hcut & Hexp).
    exists imgs. split; [exact Hres|]. split; [by apply Hcut|].
    split; [by apply Hexp|]. by apply Hall.
Defined.

(** * The explore pipeline *)

Section Pipeline.
Context `{platform : Js.Text}.
Variables (env : Env) (state : AppState) (query : string)
  (parentId referenceImage : option string).

Lemma analyzeStructure_trace q : (analyzeStructure env q).1 = [].
Proof.
  unfold analyzeStructure.
  destruct (negb _); [done|]. by destruct (analysis_reply env).
Qed.


(** The pipeline, in terms of the values it computes. *)
Lemma pipeline_eq :
  pipeline env state query parentId referenceImage =
    match analyzeStructure env (contextQuery state query parentId) with
    | (_, Throw msg) => ([SET_STATUS (analyzing_status query)], Throw msg)
    | (_, Return structure) =>
        let pre := progress env state query parentId referenceImage structure in
        match rootIdValue state parentId structure with
        | None => (pre, Throw "TypeError: cannot read properties of undefined")
        | Some rootIdent =>
            let item :=
              completeItem env state query parentId referenceImage structure
                rootIdent in
            (pre ++ [UPDATE_SESSION item
                       (newHistory state parentId item)
                       (newRoot state parentId item);
                     SET_STATUS complete_status],
             Return tt)
        end
    end.
Proof.
  unfold pipeline.
  pose proof (analyzeStructure_trace (contextQuery state query parentId)) as Htr.
  destruct (analyzeStructure env (contextQuery state query parentId))
    as [tr [structure|msg]]; simpl in Htr; subst tr; [|reflexivity].
  unfold progress, rootIdValue, newHistory, newRoot, completeItem, finalParts,
    generatedImages, effectiveName.
  cbn -[contextQuery generateVisualAssets detectPartCoordinates fallbackParts
        updateItemInTree findPathToNode explodedOf].
  destruct (explodedOf _) as [img|];
    destruct (Js.truthy_opt parentId) eqn:Hpid;
    [destruct parentId as [pid|]; [|discriminate] | |
     destruct parentId as [pid|]; [|discriminate] | ];
    try destruct (history state) as [|currentRoot rest];
    reflexivity.
Qed.

End Pipeline.

Section Explore.
Context `{platform : Js.Text}.
Variables (env : Env) (state : AppState) (query : string)
  (parentId referenceImage : option string).

Lemma committed_app tr1 tr2 : committed (tr1 ++ tr2) = committed tr1 ++ committed tr2.
Proof. apply omap_app. Qed.

Lemma committed_progress structure :
  committed (progress env state query parentId referenceImage structure) = [].
Proof. unfold progress. by destruct (explodedOf _). Qed.

Lemma contextQuery_root :
  Js.truthy_opt parentId = false → contextQuery state query parentId = query.
Proof.
  unfold contextQuery. destruct parentId as [pid|]; simpl; [|done].
  intros ->. by destruct (history state).
Qed.

Lemma explore_reaches_pipeline :
  reaches_pipeline state query parentId →
  explore env state query parentId referenceImage =
    try_catch (pipeline env state query parentId referenceImage)
              (dispatch (SET_STATUS failure_status)).
Proof. intros (Hgen & Hmem & Hoff). unfold explore. by rewrite Hgen, Hmem, Hoff. Qed.

(** A request that reaches the pipeline, whose analysis succeeds and which
    has a root to attach to, runs to completion. *)
Lemma explore_completes structure rootIdent :
  reaches_pipeline state query parentId →
  analyzeStructure env (contextQuery state query parentId) = ([], Return structure) →
  rootIdValue state parentId structure = Some rootIdent →
  let item :=
    completeItem env state query parentId referenceImage structure rootIdent in
  explore env state query parentId referenceImage =
    (progress env state query parentId referenceImage structure
     ++ [UPDATE_SESSION item (newHistory state parentId item)
           (newRoot state parentId item);
         SET_STATUS complete_status],
     Return tt).
Proof.
  intros Hreach Ha Hroot. rewrite explore_reaches_pipeline by done.
  by rewrite pipeline_eq, Ha, Hroot.
Qed.

(** Whatever item a request commits is the one compiled from a successful
    analysis. *)
Lemma explore_committed item :
  item ∈ committed (explore env state query parentId referenceImage).1 →
  ∃ structure rootIdent,
    reaches_pipeline state query parentId
    ∧ analyzeStructure env (contextQuery state query parentId)
      = ([], Return structure)
    ∧ rootIdValue state parentId structure = Some rootIdent
    ∧ item = completeItem env state query parentId referenceImage structure
               rootIdent.
Proof.
  unfold explore.
  destruct (isGenerating (status state)) eqn:Hgen;
    [by intros ?%elem_of_nil|].
  destruct (existingChild state query parentId) as [child|] eqn:Hmem;
    [by intros ?%elem_of_nil|].
  destruct (isOffline state) eqn:Hoff; [by intros ?%elem_of_nil|].
  rewrite pipeline_eq.
  pose proof (analyzeStructure_trace env (contextQuery state query parentId)) as Htr.
  destruct (analyzeStructure env (contextQuery state query parentId))
    as [tr [structure|msg]]; simpl in Htr; subst tr;
    [|by intros ?%elem_of_nil].
  destruct (rootIdValue state parentId structure) as [rootIdent|] eqn:Hroot;
    cbv beta iota zeta delta [try_catch dispatch fst].
  - rewrite committed_app, committed_progress.
    intros ->%list_elem_of_singleton.
    exists structure, rootIdent. by repeat split.
  - rewrite committed_app, committed_progress. by intros ?%elem_of_nil.
Qed.

End Explore.

(** C9. The item a child request commits is named by the context query,
    whatever name the analysis returned; the item a root request commits
    carries the name of the analysis result. *)
Theorem child_item_named_by_context_query `{platform : Js.Text}
  (env : Env) (state : AppState)
  (query : string) (parentId referenceImage : option string) (item : ExploredItem) :
  item ∈ committed (explore env state query parentId referenceImage).1 →
  (Js.truthy_opt parentId = true → name item = contextQuery state query parentId)
  ∧ (Js.truthy_opt parentId = false →
     ∃ structure, analyzeStructure env query = ([], Return structure)
       ∧ name item = s_name structure).
Proof.
  intros (structure & rootIdent & _ & Ha & _ & ->)%explore_committed.
  simpl. unfold effectiveName. split; intros Hpid; rewrite Hpid; [done|].
  rewrite contextQuery_root in Ha by done. eauto.
Qed.

Lemma child_item_named_by_context_query_witness :
  (∃ item,
     committed (explore Sample.env_no_images Sample.fast_session
                  "Pit" (Some "1") None).1 = [item]
     ∧ name item = "Pit from Avocado")
  ∧ (∃ item,
       committed (explore Sample.env_no_images Sample.fast_session
                    "Avocado" None None).1 = [item]
       ∧ name item = "Hass Avocado").
Proof.
  pose (env := Sample.env_no_images).
  pose (s := Sample.fast_session).
  split.
  - pose (item := hd Sample.avocado
                    (committed (explore env s "Pit" (Some "1") None).1)).
    assert (item ∈ committed (explore env s "Pit" (Some "1") None).1) as Hin
      by (vm_compute; left).
    exists item. split; [reflexivity|].
    exact (proj1 (child_item_named_by_context_query (platform := ascii_text)
            env s "Pit" (Some "1") None
                    item Hin) eq_refl).
  - pose (item := hd Sample.avocado
                    (committed (explore env s "Avocado" None None).1)).
    assert (item ∈ committed (explore env s "Avocado" None None).1) as Hin
      by (vm_compute; left).
    exists item. split; [reflexivity|].
    destruct (proj2 (child_item_named_by_context_query (platform := ascii_text)
            env s "Avocado" None None
                       item Hin) eq_refl) as (structure & [= <-] & Hname).
    exact Hname.
Defined.

(** * Fast mode and the scan stage *)

Section CommittedItem.
Context `{platform : Js.Text}.
Variables (env : Env) (state : AppState) (query : string)
  (parentId referenceImage : option string).

(** The parts of a committed item that has no exploded image are the
    synthetic placement of the analysed part names. *)
Lemma committed_without_exploded item :
  item ∈ committed (explore env state query parentId referenceImage).1 →
  explodedOf (images item) = None →
  ∃ structure,
    analyzeStructure env (contextQuery state query parentId) = ([], Return structure)
    ∧ parts item = fallbackParts env (s_partNames structure).
Proof.
  intros (structure & rootIdent & _ & Ha & _ & ->)%explore_committed.
  simpl. unfold finalParts. intros ->. eauto.
Qed.

Lemma fallbackParts_lookup names i part_name_i :
  names !! i = Some part_name_i →
  fallbackParts env names !! i =
    Some {| part_id := part_ident env i;
            part_name := part_name_i;
            part_description := "Visual analysis unavailable.";
            part_x := 50;
            part_y := 50 + 10 * Z.of_nat i |}.
Proof.
  intros Hi. unfold fallbackParts. rewrite list_lookup_imap, Hi. simpl.
  do 2 f_equal. lia.
Qed.

Lemma fallbackParts_length names :
  List.length (fallbackParts env names) = List.length names.
Proof. apply length_imap. Qed.

(** A failed scan of an existing exploded image yields no parts. *)
Lemma detectPartCoordinates_fails img names :
  scan_reply env = Fails → detectPartCoordinates env img names = [].
Proof.
  intros Hscan. unfold detectPartCoordinates. rewrite Hscan.
  by destruct (_ || _).
Qed.

(** A committed item whose exploded image exists but whose scan failed has
    no parts. *)
Lemma committed_after_failed_scan item :
  item ∈ committed (explore env state query parentId referenceImage).1 →
  is_Some (explodedOf (images item)) →
  scan_reply env = Fails →
  parts item = [].
Proof.
  intros (structure & rootIdent & _ & _ & _ & ->)%explore_committed.
  simpl. unfold finalParts. intros [img ->] Hscan.
  by apply detectPartCoordinates_fails.
Qed.

End CommittedItem.

(** C2, as the code has it. In fast mode the image bundle of a committed
    item, when there is one, consists of the generated exploded view alone;
    when the exploded view cannot be generated the synthesis returns no
    bundle, and a request that reaches the pipeline still completes: it
    commits an item without images whose parts are the synthetic
    placement. *)
Theorem fast_mode_exploded_or_no_bundle `{platform : Js.Text}
  (env : Env) (state : AppState)
  (query : string) (parentId referenceImage : option string) :
  generationMode state = fast →
  (∀ item,
     item ∈ committed (explore env state query parentId referenceImage).1 →
     match generateImage env FastExploded with
     | Some img =>
         images item = Some {| assembled := None; cutaway := None; exploded := img |}
         ∧ Js.truthy img = true
     | None => images item = None
     end)
  ∧ (∀ structure rootIdent,
       reaches_pipeline state query parentId →
       analyzeStructure env (contextQuery state query parentId)
         = ([], Return structure) →
       rootIdValue state parentId structure = Some rootIdent →
       generateImage env FastExploded = None →
       ∃ item path root,
         explore env state query parentId referenceImage
         = ([SET_STATUS (analyzing_status query);
             SET_STATUS (rendering_status state structure);
             UPDATE_SESSION item path root;
             SET_STATUS complete_status], Return tt)
         ∧ images item = None
         ∧ parts item = fallbackParts env (s_partNames structure)).
Proof.
  intros Hfast. split.
  - intros item (structure & rootIdent & _ & _ & _ & ->)%explore_committed.
    simpl. unfold generatedImages. rewrite Hfast, generateVisualAssets_fast.
    destruct (generateImage env FastExploded) as [img|] eqn:Himg; [|done].
    split; [done|]. by eapply generateImage_truthy.
  - intros structure rootIdent Hreach Ha Hroot Hnone.
    do 3 eexists. rewrite (explore_completes _ _ _ _ _ _ _ Hreach Ha Hroot).
    unfold progress, completeItem, finalParts, generatedImages. simpl.
    rewrite Hfast, generateVisualAssets_fast, Hnone. simpl.
    repeat split.
Qed.

Lemma fast_mode_exploded_or_no_bundle_witness :
  (∃ item,
     committed (explore Sample.env_no_scan Sample.fast_session
                  "Avocado" None None).1 = [item]
     ∧ images item = Some {| assembled := None; cutaway := None;
                             exploded := "data:image/png;base64,AAAA" |})
  ∧ (∃ item path root,
       explore Sample.env_no_images Sample.fast_session "Avocado" None None
       = ([SET_STATUS (analyzing_status "Avocado");
           SET_STATUS {| isGenerating := true; stage := rendering_assembled;
                         message := Some "Generating schematic...";
                         currentFacts := Some ["Avocados are berries."] |};
           UPDATE_SESSION item path root;
           SET_STATUS complete_status], Return tt)
       ∧ images item = None
       ∧ part_y <$> parts item = [50; 60; 70]%Z).
Proof.
  split.
  - pose (item := hd Sample.avocado
                    (committed (explore Sample.env_no_scan Sample.fast_session
                                  "Avocado" None None).1)).
    assert (item ∈ committed (explore Sample.env_no_scan Sample.fast_session
                                "Avocado" None None).1) as Hin
      by (vm_compute; left).
    exists item. split; [reflexivity|].
    exact (proj1 (proj1 (fast_mode_exploded_or_no_bundle (platform := ascii_text)
            Sample.env_no_scan
                           Sample.fast_session "Avocado" None None eq_refl)
                    item Hin)).
  - destruct (proj2 (fast_mode_exploded_or_no_bundle (platform := ascii_text)
          Sample.env_no_images
                       Sample.fast_session "Avocado" None None eq_refl)
                _ "1700"
                (conj eq_refl (conj eq_refl eq_refl)) eq_refl eq_refl eq_refl)
      as (item & path & root & Hrun & Himages & Hparts).
    exists item, path, root. split; [exact Hrun|]. split; [exact Himages|].
    rewrite Hparts. reflexivity.
Defined.

(** C2, counterexample. A fast-mode run in which the exploded view cannot be
    generated completes and commits an item that has no images. *)
Lemma fast_mode_completes_without_images :
  generationMode Sample.fast_session = fast
  ∧ generateImage Sample.env_no_images FastExploded = None
  ∧ last (explore Sample.env_no_images Sample.fast_session
            "Avocado" None None).1
    = Some (SET_STATUS complete_status)
  ∧ ∃ item,
      committed (explore Sample.env_no_images Sample.fast_session
                   "Avocado" None None).1 = [item]
      ∧ currentItem (after Sample.fast_session
                       (explore Sample.env_no_images Sample.fast_session
                          "Avocado" None None)) = Some item
      ∧ images item = None.
Proof.
  repeat split. eexists. repeat split.
Qed.

(** C3, the code at a failing input. The exploded view is generated, the
    scan fails: the committed item has images and three analysed part names,
    but its parts list is empty; no synthetic placement is substituted. *)
Theorem scan_failure_leaves_no_parts `{platform : Js.Text} :
  scan_reply Sample.env_no_scan = Fails
  ∧ data_partNames Sample.data = Some ["Skin"; "Flesh"; "Seed"]
  ∧ last (explore Sample.env_no_scan Sample.full_session "Avocado" None None).1
    = Some (SET_STATUS complete_status)
  ∧ ∃ item,
      committed (explore Sample.env_no_scan Sample.full_session
                   "Avocado" None None).1 = [item]
      ∧ is_Some (explodedOf (images item))
      ∧ parts item = [].
Proof.
  repeat split. eexists. repeat split. simpl. eauto.
Qed.

(** * The context-aware query *)

Section ContextQuery.
Context `{platform : Js.Text}.

Lemma blank_if_implied_cons x later :
  ∃ x', blank_if_implied x later = x' :: later.
Proof. destruct later; simpl; eauto. Qed.

(** The loop, entered at the boundary between the names still to treat
    and the names already treated. *)
Lemma dedup_loop_foldr (pre : list string) :
  ∀ later, later ≠ [] →
    dedup_loop (List.length pre) (pre ++ later) = foldr blank_if_implied later pre.
Proof.
  induction pre as [|x pre IH] using rev_ind; intros later Hlater; [done|].
  rewrite foldr_snoc, length_app, Nat.add_1_r. simpl dedup_loop.
  destruct later as [|y later]; [done|].
  rewrite <- (assoc_L (++)). simpl app.
  assert ((pre ++ x :: y :: later) !! S (List.length pre) = Some y) as ->.
  { change (x :: y :: later) with ([x] ++ y :: later).
    rewrite (assoc_L (++)).
    replace (S (List.length pre)) with (List.length (pre ++ [x]))
      by (rewrite length_app; simpl; lia).
    by apply list_lookup_middle. }
  rewrite (list_lookup_middle pre (y :: later) x) by done. simpl default.
  replace (if Js.includes (Js.toLowerCase y) (Js.toLowerCase x)
           then <[List.length pre:=""]> (pre ++ x :: y :: later)
           else pre ++ x :: y :: later)
    with (pre ++ blank_if_implied x (y :: later)).
  - apply IH. by destruct (blank_if_implied_cons x (y :: later)) as [x' ->].
  - simpl. destruct (Js.includes _ _); [|done].
    rewrite insert_app_r_alt by done. by rewrite Nat.sub_diag.
Qed.

(** The in-place loop computes the deduplication from the end. *)
Lemma cleanParts_dedup_from_end names : cleanParts names = dedup_from_end names.
Proof.
  unfold cleanParts, dedup_from_end.
  destruct names as [|x names] using rev_ind; [done|].
  rewrite length_app, Nat.add_1_r, foldr_snoc. simpl.
  rewrite Nat.sub_0_r. by apply dedup_loop_foldr.
Qed.

Lemma dedup_from_end_length names :
  List.length (dedup_from_end names) = List.length names.
Proof.
  induction names as [|x names IH]; [done|].
  unfold dedup_from_end in *. simpl.
  destruct (blank_if_implied_cons x (foldr blank_if_implied [] names)) as [x' ->].
  simpl. by rewrite IH.
Qed.

(** The last name of the lineage, the parent's, is never blanked. *)
Lemma dedup_from_end_last names : last (dedup_from_end names) = last names.
Proof.
  induction names as [|x names IH]; [done|].
  unfold dedup_from_end in *. simpl.
  destruct names as [|y names]; [done|].
  destruct (blank_if_implied_cons x (foldr blank_if_implied [] (y :: names)))
    as [x' ->].
  pose proof (dedup_from_end_length (y :: names)) as Hlen.
  unfold dedup_from_end in Hlen.
  destruct (foldr blank_if_implied [] (y :: names)) as [|y' later];
    [discriminate|].
  by rewrite !last_cons_cons.
Qed.

Lemma string_length_app (a b : string) :
  String.length (a +:+ b) = String.length a + String.length b.
Proof. induction a as [|c a IH]; simpl; [done | by rewrite IH]. Qed.

Lemma lineageQuery_longer path query : lineageQuery path query ≠ query.
Proof.
  unfold lineageQuery. intros Heq.
  apply (f_equal String.length) in Heq.
  rewrite !string_length_app in Heq. simpl in Heq. lia.
Qed.

End ContextQuery.

(** C1, as the code has it. Once the path to the parent is found, the
    deduplication runs over the ancestor names alone, from the end: a name
    is blanked when the name after it (as left by the previous step)
    contains it, both lower-cased. The query is not part of that list: the last
    ancestor name is never blanked, and the result is the query, the word
    "from" and the remaining names joined by spaces, never the bare query. *)
Theorem contextQuery_dedups_ancestors_only `{platform : Js.Text}
  (state : AppState) (query pid : string)
  (currentRoot : ExploredItem) (path : list ExploredItem) :
  head (history state) = Some currentRoot →
  Js.truthy pid = true →
  findPathToNode currentRoot pid = Some path →
  let names := name <$> path in
  contextQuery state query (Some pid)
  = query +:+ " from "
    +:+ Js.join " " (List.filter (fun p => negb (String.eqb p ""))
                       (dedup_from_end names))
  ∧ List.length (dedup_from_end names) = List.length names
  ∧ last (dedup_from_end names) = last names
  ∧ contextQuery state query (Some pid) ≠ query.
Proof.
  intros Hroot Hpid Hpath names. unfold contextQuery.
  destruct (history state) as [|r rest]; [discriminate|].
  injection Hroot as ->. rewrite Hpid, Hpath.
  split; [|split; [|split]].
  - unfold lineageQuery, contextString. by rewrite cleanParts_dedup_from_end.
  - apply dedup_from_end_length.
  - apply dedup_from_end_last.
  - apply lineageQuery_longer.
Qed.

Lemma contextQuery_dedups_ancestors_only_witness :
  contextQuery Sample.seed_session "Core" (Some "2") = "Core from Avocado Seed"
  ∧ last (dedup_from_end ["Avocado"; "Avocado Seed"]) = Some "Avocado Seed"
  ∧ contextQuery Sample.fresh_session "Avocado Seed" (Some "1")
    = "Avocado Seed from Avocado".
Proof.
  destruct (contextQuery_dedups_ancestors_only (platform := ascii_text)
              Sample.seed_session "Core" "2" Sample.avocado
              [Sample.avocado; Sample.seed] eq_refl eq_refl eq_refl)
    as (Hquery & _ & Hlast & _).
  destruct (contextQuery_dedups_ancestors_only (platform := ascii_text)
              Sample.fresh_session "Avocado Seed" "1" Sample.fresh_avocado
              [Sample.fresh_avocado] eq_refl eq_refl eq_refl) as (Hinside & _).
  split; [exact Hquery|]. split; [exact Hlast | exact Hinside].
Defined.

(** C1, counterexample. The avocado is viewed and none of its children
    matches "Avocado Seed", so that the request builds the context query
    from the path to the avocado. The query does not reduce to "Avocado
    Seed": the ancestor name is kept although the query contains it, and
    the committed item carries the whole context query as its name. *)
Lemma contextQuery_keeps_ancestor_named_in_query :
  existingChild Sample.fresh_session "Avocado Seed" (Some "1") = None
  ∧ findPathToNode Sample.fresh_avocado "1" = Some [Sample.fresh_avocado]
  ∧ cleanParts ["Avocado"] = ["Avocado"]
  ∧ contextQuery Sample.fresh_session "Avocado Seed" (Some "1")
    = "Avocado Seed from Avocado"
  ∧ contextQuery Sample.fresh_session "Avocado Seed" (Some "1")
    ≠ "Avocado Seed"
  ∧ name <$> committed (explore Sample.env_no_scan Sample.fresh_session
                          "Avocado Seed" (Some "1") None).1
    = ["Avocado Seed from Avocado"].
Proof. repeat split. discriminate. Qed.

(** * Memory hits *)

Section MemoryHit.
Context `{platform : Js.Text}.
Variables (env : Env) (state : AppState) (query : string)
  (referenceImage : option string).

Lemma existingChild_eq parent cur :
  Js.truthy_opt parent = true →
  currentItem state = Some cur →
  existingChild state query parent = List.find (name_matches query) (kids cur).
Proof.
  intros Hp Hcur. unfold existingChild, kids. rewrite Hp, Hcur.
  by destruct (children cur).
Qed.

Lemma find_first_match {A : Type} (p : A → bool) (xs : list A) :
  (∃ x, x ∈ xs ∧ p x = true) →
  ∃ y, List.find p xs = Some y ∧ y ∈ xs ∧ p y = true.
Proof.
  intros (x & Hin & Hx).
  destruct (List.find p xs) as [y|] eqn:Hfind.
  - apply find_some in Hfind as [Hy Hpy]. exists y.
    repeat split; [by apply list_elem_of_In | done].
  - apply list_elem_of_In in Hin.
    pose proof (find_none _ _ Hfind _ Hin). congruence.
Qed.

Lemma find_no_match {A : Type} (p : A → bool) (xs : list A) :
  (∀ x, x ∈ xs → p x = false) → List.find p xs = None.
Proof.
  intros Hall. destruct (List.find p xs) as [y|] eqn:Hfind; [|done].
  apply find_some in Hfind as [Hy Hpy].
  apply list_elem_of_In in Hy. rewrite (Hall _ Hy) in Hpy. discriminate.
Qed.

(** The elements of a chain that starts at the root are nodes of its tree. *)
Lemma linked_nodes path :
  ∀ root, head path = Some root → linked path →
    ∀ n, n ∈ path → n ∈ nodes root.
Proof.
  induction path as [|first path IH]; intros root Hhead Hlinked n Hn;
    [discriminate|].
  injection Hhead as ->.
  apply elem_of_cons in Hn as [->|Hn]; [apply root_in_nodes|].
  destruct path as [|c path]; [by apply elem_of_nil in Hn|].
  destruct Hlinked as [Hc Hrest].
  eapply child_nodes; [exact Hc|]. by apply (IH c).
Qed.

(** A child of a node of the tree is a node of the tree. *)
Lemma nodes_kids root :
  ∀ n c, n ∈ nodes root → c ∈ kids n → c ∈ nodes root.
Proof.
  induction root as [root IH] using ExploredItem_tree_ind.
  rewrite Forall_forall in IH.
  intros n c Hn Hc. rewrite nodes_eq in Hn.
  apply elem_of_cons in Hn as [->|Hn].
  - eapply child_nodes; [exact Hc | apply root_in_nodes].
  - apply list_elem_of_bind in Hn as (k & Hn & Hk).
    eapply child_nodes; [exact Hk|]. by apply (IH k Hk n c).
Qed.

(** Within a list whose images under [f] are pairwise distinct, [f] tells
    the elements apart. *)
Lemma NoDup_fmap_elem_inj {A B : Type} (f : A → B) (l : list A) x y :
  NoDup (f <$> l) → x ∈ l → y ∈ l → f x = f y → x = y.
Proof.
  induction l as [|a l IH]; intros Hnd Hx Hy Hf; [by apply elem_of_nil in Hx|].
  rewrite fmap_cons in Hnd. apply NoDup_cons in Hnd as [Hnot Hnd].
  apply elem_of_cons in Hx as [Hx|Hx]; apply elem_of_cons in Hy as [Hy|Hy].
  - congruence.
  - exfalso. apply Hnot. subst a. rewrite Hf. by apply list_elem_of_fmap_2.
  - exfalso. apply Hnot. subst a. rewrite <- Hf. by apply list_elem_of_fmap_2.
  - by apply IH.
Qed.

End MemoryHit.

(** The two directions of the name match, on the avocado. *)
Example name_matches_both_ways :
  name_matches "Seed" Sample.seed = true
  ∧ name_matches "Avocado Seed" (Sample.node "5" "seed" 1 None) = true
  ∧ name_matches "Stone" Sample.seed = false.
Proof. repeat split. Qed.

(** C5, as the code has it. A request made while a generation is in flight
    does nothing. Otherwise, a request with a parent identifier, made while
    some child of the current item matches the query by name in either
    direction, runs no pipeline: it only dispatches the navigation to the
    first such child. In a well-formed session the path lookup from the
    active root then makes a node with that child's identifier the current
    item; it is that child when the identifiers of the tree are pairwise
    distinct. The offline flag is not consulted before that; it is when no
    child matches that an offline session answers with the offline error
    alone. *)
Theorem memory_hit_precedes_offline_check `{platform : Js.Text} (env : Env)
  (state : AppState) (query pid : string) (referenceImage : option string)
  (cur : ExploredItem) :
  Js.truthy pid = true →
  currentItem state = Some cur →
  let run := explore env state query (Some pid) referenceImage in
  (isGenerating (status state) = true → run = ([], Return tt))
  ∧ (isGenerating (status state) = false →
     ((∃ c, c ∈ kids cur ∧ name_matches query c = true) →
      ∃ child,
        List.find (name_matches query) (kids cur) = Some child
        ∧ child ∈ kids cur ∧ name_matches query child = true
        ∧ run = ([NAVIGATE_TO (id child)], Return tt)
        ∧ (∀ root,
             head (history state) = Some root → linked (history state) →
             last (history state) = Some cur →
             ∃ path target,
               findPathToNode root (id child) = Some path
               ∧ last path = Some target ∧ id target = id child
               ∧ (NoDup (id <$> nodes root) → target = child)
               ∧ currentItem (after state run) = Some target
               ∧ history (after state run) = path
               ∧ collection (after state run) = collection state
               ∧ status (after state run) = status state))
     ∧ ((∀ c, c ∈ kids cur → name_matches query c = false) →
        isOffline state = true →
        run = ([SET_STATUS offline_status], Return tt))).
Proof.
  intros Hpid Hcur run. subst run. split.
  { intros Hgen. unfold explore. by rewrite Hgen. }
  intros Hgen. split.
  - intros Hmatch.
    destruct (find_first_match _ _ Hmatch) as (child & Hfind & Hin & Hchild).
    exists child. split; [done|]. split; [done|]. split; [done|].
    assert (explore env state query (Some pid) referenceImage
            = ([NAVIGATE_TO (id child)], Return tt)) as Hrun.
    { unfold explore.
      by rewrite Hgen, (existingChild_eq _ _ _ cur) by done; rewrite Hfind. }
    split; [done|].
    intros root Hroot Hlinked Hlast. rewrite Hrun.
    assert (child ∈ nodes root) as Hnode.
    { eapply nodes_kids; [|exact Hin].
      eapply linked_nodes; [exact Hroot | exact Hlinked |].
      apply last_Some in Hlast as [l' ->]. apply elem_of_app. right. left. }
    assert (occurs (id child) root) as Hocc by (by exists child).
    destruct (findPathToNode root (id child)) as [path|] eqn:Hpath;
      [|by apply findPathToNode_None in Hpath].
    destruct (findPathToNode_sound _ _ _ Hpath)
      as (_ & (target & Ht & Hid) & _ & Hnodes).
    exists path, target. unfold after, dispatch_all. simpl.
    destruct (history state) as [|r rest]; [discriminate|].
    injection Hroot as ->. rewrite Hpath. simpl.
    split; [done|]. split; [done|]. split; [done|]. split; [|done].
    intros Hnodup.
    apply (NoDup_fmap_elem_inj id (nodes root)); [done| |done|done].
    apply Hnodes. apply last_Some in Ht as [l' ->].
    apply elem_of_app. right. left.
  - intros Hnone Hoff. unfold explore.
    rewrite Hgen, (existingChild_eq _ _ _ cur) by done.
    by rewrite (find_no_match _ _ Hnone), Hoff.
Qed.

Lemma memory_hit_precedes_offline_check_witness :
  explore Sample.env_down Sample.offline_session "seed" (Some "1") None
  = ([NAVIGATE_TO "2"], Return tt)
  ∧ (∃ path,
       findPathToNode Sample.avocado "2" = Some path
       ∧ currentItem (after Sample.offline_session
                        (explore Sample.env_down Sample.offline_session
                           "seed" (Some "1") None)) = Some Sample.seed
       ∧ history (after Sample.offline_session
                    (explore Sample.env_down Sample.offline_session
                       "seed" (Some "1") None)) = path)
  ∧ explore Sample.env_down Sample.offline_session "Stone" (Some "1") None
    = ([SET_STATUS offline_status], Return tt)
  ∧ explore Sample.env_down Sample.busy_session "seed" (Some "1") None
    = ([], Return tt).
Proof.
  destruct (memory_hit_precedes_offline_check (platform := ascii_text)
              Sample.env_down Sample.offline_session "seed" "1" None
              Sample.avocado eq_refl eq_refl) as [_ Hidle].
  destruct (Hidle eq_refl) as [Hhit _].
  destruct (memory_hit_precedes_offline_check (platform := ascii_text)
              Sample.env_down Sample.offline_session "Stone" "1" None
              Sample.avocado eq_refl eq_refl) as [_ Hidle'].
  destruct (Hidle' eq_refl) as [_ Hmiss].
  destruct (memory_hit_precedes_offline_check (platform := ascii_text)
              Sample.env_down Sample.busy_session "seed" "1" None
              Sample.avocado eq_refl eq_refl) as [Hbusy _].
  split; [|split; [|split]].
  - destruct Hhit as (child & Hfind & _ & _ & Hrun & _).
    { exists Sample.seed. split; [left | reflexivity]. }
    injection Hfind as <-. exact Hrun.
  - destruct Hhit as (child & Hfind & _ & _ & _ & Hnav).
    { exists Sample.seed. split; [left | reflexivity]. }
    injection Hfind as <-.
    destruct (Hnav Sample.avocado eq_refl I eq_refl)
      as (path & target & Hpath & _ & _ & Hsame & Hcur & Hhist & _).
    rewrite <- (Hsame ltac:(apply (bool_decide_unpack _); vm_compute; exact I)).
    exists path. repeat split; assumption.
  - apply Hmiss; [|reflexivity].
    intros c Hc. apply list_elem_of_In in Hc.
    destruct Hc as [<-|[<-|[]]]; reflexivity.
  - by apply Hbusy.
Defined.

(** C5, counterexample. Three requests with a parent identifier for which
    a child of the current item matches the query, and which do not
    navigate to that child. While a generation is in flight the request is
    dropped: nothing is dispatched and the session stays where it is. Where
    the identifier of the matching child is carried by an earlier node of
    the tree as well, the path lookup ends at that node. And an empty
    parent identifier counts as none: the memory is not consulted, and the
    offline session answers with the offline error. *)
Lemma memory_hit_without_navigation_to_child :
  (Sample.seed ∈ kids Sample.avocado
   ∧ name_matches "seed" Sample.seed = true
   ∧ explore Sample.env_down Sample.busy_session "seed" (Some "1") None
     = ([], Return tt)
   ∧ currentItem (after Sample.busy_session
                    (explore Sample.env_down Sample.busy_session
                       "seed" (Some "1") None)) = Some Sample.avocado)
  ∧ (existingChild Sample.twin_session "seed" (Some "1") = Some Sample.seed
     ∧ explore Sample.env_down Sample.twin_session "seed" (Some "1") None
       = ([NAVIGATE_TO "2"], Return tt)
     ∧ currentItem (after Sample.twin_session
                      (explore Sample.env_down Sample.twin_session
                         "seed" (Some "1") None)) = Some Sample.wax
     ∧ Sample.wax ≠ Sample.seed)
  ∧ explore Sample.env_down Sample.offline_session "seed" (Some "") None
    = ([SET_STATUS offline_status], Return tt).
Proof.
  split; [|split; [split; [|split; [|split]]|]]; try reflexivity.
  - split; [left | by repeat split].
  - discriminate.
Qed.

(** * Failure of a request *)

Section Failure.
Context `{platform : Js.Text}.
Variables (env : Env) (state : AppState) (query : string)
  (parentId referenceImage : option string).

(** Setting the status touches nothing else. *)
Lemma dispatch_statuses_frame trace :
  Forall sets_status trace →
  ∀ s, currentItem (dispatch_all s trace) = currentItem s
       ∧ history (dispatch_all s trace) = history s
       ∧ collection (dispatch_all s trace) = collection s.
Proof.
  unfold dispatch_all.
  induction 1 as [|action trace [st ->] _ IH]; intros s; [done|].
  cbn [fold_left]. by destruct (IH (reducer s (SET_STATUS st))) as (-> & -> & ->).
Qed.

Lemma dispatch_all_snoc s trace action :
  dispatch_all s (trace ++ [action]) = reducer (dispatch_all s trace) action.
Proof. unfold dispatch_all. by rewrite fold_left_app. Qed.

Lemma statuses_app tr1 tr2 : statuses (tr1 ++ tr2) = statuses tr1 ++ statuses tr2.
Proof. apply omap_app. Qed.

Lemma progress_sets_status structure :
  Forall sets_status
    (progress env state query parentId referenceImage structure).
Proof.
  unfold progress, sets_status.
  destruct (explodedOf _); repeat constructor; eauto.
Qed.





End Failure.




(** The image entry point: a failed identification is reported by one error
    status and changes nothing else. *)
Lemma exploreFromDataUrl_identification_failure `{platform : Js.Text}
  (env : Env) (state : AppState)
  (base64 : string) :
  isGenerating (status state) = false →
  isOffline state = false →
  apiKey env = "" ∨ identify_reply env = Fails →
  let run := exploreFromDataUrl env state base64 in
  List.map stage (statuses run.1) = [analyzing; error]
  ∧ committed run.1 = []
  ∧ currentItem (after state run) = currentItem state
  ∧ history (after state run) = history state
  ∧ collection (after state run) = collection state.
Proof.
  intros Hgen Hoff Hfail run. subst run.
  unfold exploreFromDataUrl, identifyMainObject, Js.truthy.
  rewrite Hgen, Hoff.
  destruct (String.eqb_spec (apiKey env) "") as [Hkey|Hkey]; simpl; [done|].
  destruct Hfail as [?|Hreply]; [done|]. by rewrite Hreply.
Qed.

(** * More on the tree helpers *)

(** A successful lookup shows that the identifier occurs. *)
Lemma findPathToNode_occurs root targetId path :
  findPathToNode root targetId = Some path → occurs targetId root.
Proof.
  intros H.
  destruct (findPathToNode_sound _ _ _ H) as (_ & (t & Hlast & Hid) & _ & Hn).
  exists t. split; [|done]. apply Hn.
  apply last_Some in Hlast as [l' ->]. apply elem_of_app. right. left.
Qed.

Section FirstMatch.
Variable targetId : string.

Let carries (n : ExploredItem) : bool := String.eqb (id n) targetId.

Lemma find_app_first {A : Type} (p : A → bool) (xs ys : list A) :
  List.find p (xs ++ ys)
  = match List.find p xs with
    | Some x => Some x
    | None => List.find p ys
    end.
Proof.
  induction xs as [|x xs IH]; simpl; [done|]. by destruct (p x).
Qed.

Lemma findPathToNode_nonempty root path :
  findPathToNode root targetId = Some path → ∃ target, last path = Some target.
Proof.
  intros H. destruct (findPathToNode_sound _ _ _ H) as (_ & (t & Ht & _) & _).
  eauto.
Qed.

Lemma last_of_first_path (cs : list ExploredItem) :
  Forall (λ c, findPathToNode c targetId ≫= last = List.find carries (nodes c)) cs →
  first_path (λ child, findPathToNode child targetId) cs ≫= last
  = List.find carries (cs ≫= nodes).
Proof.
  induction 1 as [|c cs Hc _ IH]; [done|].
  simpl. change (nodes c ++ (cs ≫= nodes)) with (nodes c ++ (cs ≫= nodes)).
  rewrite find_app_first, <- Hc.
  destruct (findPathToNode c targetId) as [path|] eqn:Hpath; simpl.
  - by destruct (findPathToNode_nonempty _ _ Hpath) as [t ->].
  - exact IH.
Qed.

End FirstMatch.

(** X1. The node a lookup ends at is the first one, in depth-first order from
    the root, that carries the identifier: with duplicated identifiers the
    later ones are never reached. *)
Theorem findPathToNode_first_match (root : ExploredItem) (targetId : string) :
  findPathToNode root targetId ≫= last
  = List.find (λ n, String.eqb (id n) targetId) (nodes root).
Proof.
  induction root as [root IH] using ExploredItem_tree_ind.
  rewrite findPathToNode_eq, nodes_eq. simpl List.find.
  destruct (String.eqb (id root) targetId); [done|].
  rewrite <- (last_of_first_path targetId (kids root) IH).
  destruct (first_path _ (kids root)) as [path|] eqn:Hpath; [|done].
  simpl. apply first_path_Some in Hpath as (c & _ & Hc).
  destruct (findPathToNode_sound _ _ _ Hc) as (Hhead & _).
  by destruct path.
Qed.

(** X2. A found path meets the identifier only at its end: no proper ancestor
    in it carries the target identifier. *)
Theorem findPathToNode_stops_at_first (root : ExploredItem) (targetId : string)
  (path : list ExploredItem) :
  findPathToNode root targetId = Some path →
  ∃ ancestors target,
    path = ancestors ++ [target]
    ∧ id target = targetId
    ∧ Forall (λ n, id n ≠ targetId) ancestors.
Proof.
  revert path. induction root as [root IH] using ExploredItem_tree_ind.
  rewrite Forall_forall in IH.
  intros path. rewrite findPathToNode_eq.
  destruct (String.eqb (id root) targetId) eqn:Heq.
  - intros [= <-]. apply String.eqb_eq in Heq. by exists [], root.
  - apply String.eqb_neq in Heq.
    destruct (first_path _ (kids root)) as [sub|] eqn:Hsub; [|discriminate].
    intros [= <-]. apply first_path_Some in Hsub as (c & Hin & Hc).
    destruct (IH c Hin sub Hc) as (ancestors & target & -> & Hid & Hall).
    exists (root :: ancestors), target. by repeat split; [|constructor].
Qed.

Lemma findPathToNode_stops_at_first_witness :
  ∃ ancestors target,
    [Sample.avocado; Sample.seed] = ancestors ++ [target]
    ∧ id target = "2"
    ∧ Forall (λ n, id n ≠ "2") ancestors.
Proof.
  exact (findPathToNode_stops_at_first Sample.avocado "2"
           [Sample.avocado; Sample.seed] eq_refl).
Defined.

Section AttachMore.
Variables (targetId : string) (newChild : ExploredItem).

Let attach (root : ExploredItem) : ExploredItem :=
  updateItemInTree root targetId newChild.

Lemma not_occurs_inv i root :
  ¬ occurs i root → id root ≠ i ∧ ∀ c, c ∈ kids root → ¬ occurs i c.
Proof.
  intros Hno. split.
  - intros Hid. apply Hno. exists root. split; [apply root_in_nodes | done].
  - intros c Hc (n & Hn & Hid). apply Hno. exists n.
    split; [by eapply child_nodes | done].
Qed.

Lemma id_with_children root cs : id (with_children root cs) = id root.
Proof. reflexivity. Qed.

Lemma with_children_same root cs :
  children root = Some cs → with_children root cs = root.
Proof. destruct root; simpl. by intros ->. Qed.

(** Without a node that carries the parent identifier nothing is attached. *)
Lemma attach_absent root : ¬ occurs targetId root → attach root = root.
Proof.
  induction root as [root IH] using ExploredItem_tree_ind.
  rewrite Forall_forall in IH.
  intros [Hid Hkids]%not_occurs_inv.
  unfold attach. rewrite updateItemInTree_eq.
  apply String.eqb_neq in Hid. rewrite Hid.
  destruct (children root) as [cs|] eqn:Hcs; [|done].
  apply with_children_same. rewrite Hcs. f_equal.
  unfold kids in IH, Hkids. rewrite Hcs in IH, Hkids. simpl in IH, Hkids.
  symmetry. transitivity (map (λ c, c) cs); [|apply map_id].
  apply map_ext_in. intros c Hc%list_elem_of_In. apply IH; auto.
Qed.

Lemma first_path_app find cs1 cs2 :
  first_path find (cs1 ++ cs2)
  = match first_path find cs1 with
    | Some path => Some path
    | None => first_path find cs2
    end.
Proof.
  induction cs1 as [|c cs1 IH]; simpl; [done|]. by destruct (find c).
Qed.

Lemma first_path_absent i cs :
  (∀ c, c ∈ cs → ¬ occurs i c) →
  first_path (λ child, findPathToNode child i) cs = None.
Proof.
  intros Hno. apply first_path_None. intros c Hc.
  apply findPathToNode_None. auto.
Qed.

(** Looking up a freshly attached child. *)
Lemma attach_then_find root :
  occurs targetId root →
  ¬ occurs (id newChild) root →
  ∃ ancestors parent,
    findPathToNode (attach root) (id newChild)
    = Some (ancestors ++ [parent; newChild])
    ∧ id parent = targetId
    ∧ head (ancestors ++ [parent; newChild]) = Some (attach root).
Proof.
  induction root as [root IH] using ExploredItem_tree_ind.
  rewrite Forall_forall in IH.
  intros Hocc [Hfresh Hkids]%not_occurs_inv.
  unfold attach. rewrite updateItemInTree_eq.
  destruct (String.eqb (id root) targetId) eqn:Heq.
  - apply String.eqb_eq in Heq.
    assert (has_id (id newChild) (kids root) = false) as ->.
    { apply not_true_is_false. intros Hhas. apply has_id_spec in Hhas.
      apply list_elem_of_fmap in Hhas as (c & Hid & Hc).
      apply (Hkids c Hc). exists c. split; [apply root_in_nodes | done]. }
    set (parent := with_children root (kids root ++ [newChild])).
    exists [], parent. split; [|by split].
    rewrite findPathToNode_eq.
    change (id parent) with (id root).
    change (kids parent) with (kids root ++ [newChild]).
    apply String.eqb_neq in Hfresh. rewrite Hfresh.
    rewrite first_path_app, first_path_absent by done.
    simpl. rewrite findPathToNode_eq, String.eqb_refl. done.
  - assert (∃ cs, children root = Some cs) as [cs Hcs].
    { destruct (children root) as [cs|] eqn:Hcs; [eauto|].
      exfalso. destruct Hocc as (n & Hn & Hid).
      rewrite nodes_eq in Hn. unfold kids in Hn. rewrite Hcs in Hn.
      apply list_elem_of_singleton in Hn as ->.
      apply String.eqb_neq in Heq. done. }
    rewrite Hcs.
    set (root' := with_children root (map attach cs)).
    assert (∃ c, c ∈ cs ∧ occurs targetId c) as Hsome.
    { destruct Hocc as (n & Hn & Hid).
      rewrite nodes_eq in Hn. unfold kids in Hn. rewrite Hcs in Hn. simpl in Hn.
      apply elem_of_cons in Hn as [->|Hn].
      - apply String.eqb_neq in Heq. done.
      - apply list_elem_of_bind in Hn as (c & Hn & Hc). exists c.
        split; [done|]. by exists n. }
    unfold kids in IH, Hkids. rewrite Hcs in IH, Hkids. simpl in IH, Hkids.
    assert (∃ ancestors parent,
              first_path (λ child, findPathToNode child (id newChild))
                (map attach cs)
              = Some (ancestors ++ [parent; newChild])
              ∧ id parent = targetId) as (ancestors & parent & Hfirst & Hparent).
    { clear Hocc Hcs root'.
      induction cs as [|c cs IHcs].
      - destruct Hsome as (c & Hc & _). by apply elem_of_nil in Hc.
      - simpl.
        destruct (findPathToNode c targetId) as [p|] eqn:Hfind.
        + assert (occurs targetId c) as Hc by (by eapply findPathToNode_occurs).
          destruct (IH c (list_elem_of_here _ _) Hc
                      (Hkids c (list_elem_of_here _ _)))
            as (ancestors & parent & -> & Hparent & _).
          eauto.
        + apply findPathToNode_None in Hfind.
          fold (attach c). rewrite (attach_absent c Hfind).
          pose proof (Hkids c (list_elem_of_here _ _)) as Hc.
          apply findPathToNode_None in Hc. rewrite Hc.
          apply IHcs.
          * intros c' Hc'. apply IH. by right.
          * intros c' Hc'. apply Hkids. by right.
          * destruct Hsome as (c' & [->|Hc']%elem_of_cons & Hocc'); [done|eauto]. }
    exists (root' :: ancestors), parent. split; [|by split].
    rewrite findPathToNode_eq, kids_with_children, id_with_children.
    apply String.eqb_neq in Hfresh. unfold attach in Hfirst.
    by rewrite Hfresh, Hfirst.
Qed.

(** Attaching keeps every identifier of the tree, and the only new ones are
    those of the attached child. *)
Lemma attach_occurs i root :
  (occurs i root → occurs i (attach root))
  ∧ (occurs i (attach root) → occurs i root ∨ occurs i newChild).
Proof.
  induction root as [root IH] using ExploredItem_tree_ind.
  rewrite Forall_forall in IH.
  unfold attach. rewrite updateItemInTree_eq.
  destruct (String.eqb (id root) targetId) eqn:Heq.
  - set (cs' := if has_id (id newChild) (kids root) then kids root
                else kids root ++ [newChild]).
    assert (∀ n, n ∈ nodes (with_children root cs')
                 ↔ n = with_children root cs' ∨ n ∈ (cs' ≫= nodes)) as Hnodes.
    { intros n. rewrite nodes_eq. apply elem_of_cons. }
    split.
    + intros (n & Hn & Hid). rewrite nodes_eq in Hn.
      apply elem_of_cons in Hn as [->|Hn].
      * exists (with_children root cs'). split; [apply root_in_nodes | done].
      * exists n. split; [|done]. apply Hnodes. right.
        apply list_elem_of_bind in Hn as (c & Hn & Hc).
        apply list_elem_of_bind. exists c. split; [done|].
        subst cs'. destruct (has_id _ _); [done|].
        apply elem_of_app. by left.
    + intros (n & Hn & Hid). apply Hnodes in Hn as [->|Hn].
      * left. exists root. split; [apply root_in_nodes | done].
      * apply list_elem_of_bind in Hn as (c & Hn & Hc).
        subst cs'. destruct (has_id _ _).
        -- left. exists n. split; [by eapply child_nodes | done].
        -- apply elem_of_app in Hc as [Hc|Hc].
           ++ left. exists n. split; [by eapply child_nodes | done].
           ++ apply list_elem_of_singleton in Hc as ->. right. by exists n.
  - destruct (children root) as [cs|] eqn:Hcs; [|by split; auto].
    unfold kids in IH. rewrite Hcs in IH. simpl in IH.
    set (root' := with_children root (map attach cs)).
    assert (∀ n, n ∈ nodes root' ↔ n = root' ∨ n ∈ (map attach cs ≫= nodes))
      as Hnodes.
    { intros n. rewrite nodes_eq. apply elem_of_cons. }
    split.
    + intros (n & Hn & Hid). rewrite nodes_eq in Hn.
      unfold kids in Hn. rewrite Hcs in Hn. simpl in Hn.
      apply elem_of_cons in Hn as [->|Hn].
      * exists root'. split; [apply root_in_nodes | done].
      * apply list_elem_of_bind in Hn as (c & Hn & Hc).
        destruct (proj1 (IH c Hc)) as (n' & Hn' & Hid'); [by exists n|].
        exists n'. split; [|done]. apply Hnodes. right.
        apply list_elem_of_bind. exists (attach c). split; [done|].
        apply list_elem_of_In, in_map. by apply list_elem_of_In.
    + intros (n & Hn & Hid). apply Hnodes in Hn as [->|Hn].
      * left. exists root. split; [apply root_in_nodes | done].
      * apply list_elem_of_bind in Hn as (c' & Hn & Hc').
        apply list_elem_of_In, in_map_iff in Hc' as (c & <- & Hc%list_elem_of_In).
        destruct (proj2 (IH c Hc)) as [(n' & Hn' & Hid')|Hnew]; [by exists n| |by right].
        left. exists n'. split; [|done].
        eapply child_nodes; [|exact Hn']. unfold kids. by rewrite Hcs.
Qed.

End AttachMore.

(** X3. Attaching under a parent identifier that no node carries returns the
    tree as it was: the new child is dropped without a trace. *)
Theorem updateItemInTree_absent_parent (root : ExploredItem) (parentId : string)
  (child : ExploredItem) :
  ¬ occurs parentId root → updateItemInTree root parentId child = root.
Proof. apply attach_absent. Qed.

Lemma updateItemInTree_absent_parent_witness :
  updateItemInTree Sample.avocado "9" Sample.pit = Sample.avocado.
Proof.
  apply updateItemInTree_absent_parent.
  apply findPathToNode_None. reflexivity.
Defined.

(** X4. Attach, then look up: when the parent identifier occurs in the tree and
    the identifier of the child is new to it, the lookup of the child in the
    new tree succeeds, starts at the new root and ends with a node that
    carries the parent identifier followed by the child itself. *)
Theorem updateItemInTree_then_findPathToNode (root : ExploredItem)
  (parentId : string) (child : ExploredItem) :
  occurs parentId root →
  ¬ occurs (id child) root →
  ∃ ancestors parent,
    findPathToNode (updateItemInTree root parentId child) (id child)
    = Some (ancestors ++ [parent; child])
    ∧ id parent = parentId
    ∧ head (ancestors ++ [parent; child])
      = Some (updateItemInTree root parentId child).
Proof. apply attach_then_find. Qed.

Lemma updateItemInTree_then_findPathToNode_witness :
  ∃ ancestors parent,
    findPathToNode (updateItemInTree Sample.avocado "2" Sample.pit) "4"
    = Some (ancestors ++ [parent; Sample.pit])
    ∧ id parent = "2".
Proof.
  destruct (updateItemInTree_then_findPathToNode Sample.avocado "2" Sample.pit)
    as (ancestors & parent & Hfind & Hparent & _).
  - exists Sample.seed. split; [|reflexivity].
    change (Sample.seed ∈ [Sample.avocado; Sample.seed; Sample.skin]).
    right. left.
  - apply findPathToNode_None. reflexivity.
  - by exists ancestors, parent.
Defined.

(** X5. Attaching neither removes nor invents identifiers: those of the new tree
    are those of the old tree and, at most, those of the attached child. *)
Theorem updateItemInTree_identifiers (root : ExploredItem) (parentId : string)
  (child : ExploredItem) (i : string) :
  (occurs i root → occurs i (updateItemInTree root parentId child))
  ∧ (occurs i (updateItemInTree root parentId child) →
     occurs i root ∨ occurs i child).
Proof. apply attach_occurs. Qed.

Lemma updateItemInTree_identifiers_witness :
  occurs "3" (updateItemInTree Sample.avocado "2" Sample.pit)
  ∧ (occurs "4" Sample.avocado ∨ occurs "4" Sample.pit).
Proof.
  destruct (updateItemInTree_identifiers Sample.avocado "2" Sample.pit "3")
    as [Hkeep _].
  destruct (updateItemInTree_identifiers Sample.avocado "2" Sample.pit "4")
    as [_ Hnew].
  split.
  - apply Hkeep. exists Sample.skin. split; [|reflexivity].
    change (Sample.skin ∈ [Sample.avocado; Sample.seed; Sample.skin]).
    right. right. left.
  - apply Hnew. eapply findPathToNode_occurs. reflexivity.
Defined.

(** * More on the reducer *)

Section Upsert.

Lemma findIndex_Some {A : Type} (p : A → bool) (xs : list A) k :
  findIndex p xs = Some k → ∃ x, xs !! k = Some x ∧ p x = true.
Proof.
  revert k. induction xs as [|x xs IH]; intros k; simpl; [discriminate|].
  destruct (p x) eqn:Hx.
  - intros [= <-]. eauto.
  - destruct (findIndex p xs) as [j|]; simpl; [|discriminate].
    intros [= <-]. apply IH. reflexivity.
Qed.

Lemma findIndex_None {A : Type} (p : A → bool) (xs : list A) :
  findIndex p xs = None → ∀ x, x ∈ xs → p x = false.
Proof.
  induction xs as [|x xs IH]; simpl; [by intros _ x ?%elem_of_nil|].
  destruct (p x) eqn:Hx; [discriminate|].
  destruct (findIndex p xs) as [j|]; simpl; [discriminate|].
  intros _ y [->|Hy]%elem_of_cons; auto.
Qed.

Lemma fmap_insert_same_id (collection : list ExploredItem) k old root :
  collection !! k = Some old → id old = id root →
  id <$> <[k := root]> collection = id <$> collection.
Proof.
  intros Hk Hid. rewrite list_fmap_insert, <- Hid.
  apply list_insert_id. by rewrite list_lookup_fmap, Hk.
Qed.

End Upsert.

(** X6. UPDATE_SESSION upserts the root into the collection: the root is in the
    new collection; when a root with its identifier was there, the
    identifiers of the collection and their order are unchanged, otherwise
    the new identifier is put in front; the roots with other identifiers
    stay; and identifiers that were pairwise distinct remain so. *)
Theorem update_session_upserts_root (state : AppState)
  (item : ExploredItem) (path : list ExploredItem) (root : ExploredItem) :
  let before := collection state in
  let after_ := collection (reducer state (UPDATE_SESSION item path root)) in
  root ∈ after_
  ∧ (id root ∈ id <$> before → id <$> after_ = id <$> before)
  ∧ (id root ∉ id <$> before → after_ = root :: before)
  ∧ (∀ r, r ∈ before → id r ≠ id root → r ∈ after_)
  ∧ (NoDup (id <$> before) → NoDup (id <$> after_)).
Proof.
  intros before after_. subst before after_. simpl.
  destruct (findIndex _ (collection state)) as [k|] eqn:Hfind.
  - destruct (findIndex_Some _ _ _ Hfind) as (old & Hk & Hold).
    apply String.eqb_eq in Hold.
    assert (id <$> <[k:=root]> (collection state) = id <$> collection state)
      as Hids by (by eapply fmap_insert_same_id).
    split; [|split; [|split; [|split]]].
    + apply list_elem_of_lookup. exists k.
      apply list_lookup_insert_eq. by eapply lookup_lt_Some.
    + done.
    + intros Hnot. exfalso. apply Hnot. rewrite <- Hold.
      apply list_elem_of_fmap. exists old. split; [done|].
      by eapply list_elem_of_lookup_2.
    + intros r Hr Hne. apply list_elem_of_lookup in Hr as [j Hj].
      apply list_elem_of_lookup. exists j.
      rewrite list_lookup_insert_ne; [done|].
      intros ->. rewrite Hk in Hj. injection Hj as ->. done.
    + by rewrite Hids.
  - pose proof (findIndex_None _ _ Hfind) as Hnone.
    assert (id root ∉ id <$> collection state) as Hfresh.
    { intros (r & Hid & Hr)%list_elem_of_fmap.
      specialize (Hnone r Hr). simpl in Hnone.
      apply String.eqb_neq in Hnone. done. }
    split; [|split; [|split; [|split]]].
    + left.
    + done.
    + done.
    + intros r Hr _. by right.
    + intros Hnd. simpl. by constructor.
Qed.

Lemma update_session_upserts_root_witness :
  id <$> collection (reducer Sample.full_session
                       (UPDATE_SESSION Sample.pit [Sample.pit]
                          (Sample.node "1" "Hass" 0 None)))
  = ["1"]
  ∧ collection (reducer Sample.full_session
                  (UPDATE_SESSION Sample.pit [Sample.pit] Sample.pit))
    = [Sample.pit; Sample.avocado].
Proof.
  destruct (update_session_upserts_root Sample.full_session Sample.pit
              [Sample.pit] (Sample.node "1" "Hass" 0 None))
    as (_ & Hsame & _).
  destruct (update_session_upserts_root Sample.full_session Sample.pit
              [Sample.pit] Sample.pit) as (_ & _ & Hnew & _).
  split.
  - apply Hsame. left.
  - apply Hnew. by intros ?%list_elem_of_singleton.
Defined.

(** X7. Every action keeps the session well formed, provided the payload of
    UPDATE_SESSION, which the reducer stores as it is, is well formed. *)
Theorem reducer_keeps_session_ok (state : AppState) (action : ExploreAction) :
  session_ok state → payload_ok action → session_ok (reducer state action).
Proof.
  intros [Hlast Hlinked] Hpayload. unfold session_ok.
  destruct action; simpl; try done.
  destruct (history state) as [|currentRoot rest] eqn:Hhist; [by rewrite Hhist|].
  destruct (findPathToNode currentRoot targetId) as [newPath|] eqn:Hpath;
    [|by rewrite Hhist].
  simpl. split; [done|].
  by destruct (findPathToNode_sound _ _ _ Hpath) as (_ & _ & ? & _).
Qed.

Lemma reducer_keeps_session_ok_witness :
  session_ok (reducer Sample.full_session (NAVIGATE_TO "2"))
  ∧ session_ok (reducer Sample.full_session (UPDATE_SESSION Sample.pit [Sample.pit] Sample.pit)).
Proof.
  assert (session_ok Sample.full_session) as Hok by (split; [reflexivity | exact I]).
  split.
  - exact (reducer_keeps_session_ok Sample.full_session (NAVIGATE_TO "2") Hok I).
  - exact (reducer_keeps_session_ok Sample.full_session
             (UPDATE_SESSION Sample.pit [Sample.pit] Sample.pit) Hok
             (conj eq_refl I)).
Defined.

(** X8. A navigation to an identifier that occurs under the active root makes a
    node with that identifier the current item, at the end of a chain that
    starts at the same root; the collection and the status stay. *)
Theorem navigate_reaches_target (state : AppState) (targetId : string)
  (root : ExploredItem) :
  head (history state) = Some root →
  occurs targetId root →
  let state' := reducer state (NAVIGATE_TO targetId) in
  ∃ target,
    currentItem state' = Some target
    ∧ id target = targetId
    ∧ last (history state') = Some target
    ∧ head (history state') = Some root
    ∧ linked (history state')
    ∧ collection state' = collection state
    ∧ status state' = status state.
Proof.
  intros Hroot Hocc state'. subst state'. simpl.
  destruct (history state) as [|r rest]; [discriminate|].
  injection Hroot as ->.
  destruct (findPathToNode root targetId) as [path|] eqn:Hpath;
    [|by apply findPathToNode_None in Hpath].
  destruct (findPathToNode_sound _ _ _ Hpath)
    as (Hhead & (target & Hlast & Hid) & Hlinked & _).
  exists target. simpl. by repeat split.
Qed.

Lemma navigate_reaches_target_witness :
  ∃ target,
    currentItem (reducer Sample.full_session (NAVIGATE_TO "3")) = Some target
    ∧ id target = "3".
Proof.
  destruct (navigate_reaches_target Sample.full_session "3" Sample.avocado eq_refl)
    as (target & Hcur & Hid & _).
  - exists Sample.skin. split; [|reflexivity].
    change (Sample.skin ∈ [Sample.avocado; Sample.seed; Sample.skin]).
    right. right. left.
  - by exists target.
Defined.

(** X9. Navigation looks the target up from the active root, not from the
    current item: repeating a navigation changes nothing more, and a
    navigation to an identifier that occurs under the active root wipes out
    the effect of the navigation before it. *)
Theorem navigate_last_wins (state : AppState) (first second : string) :
  reducer (reducer state (NAVIGATE_TO first)) (NAVIGATE_TO first)
  = reducer state (NAVIGATE_TO first)
  ∧ ((∀ root, head (history state) = Some root → occurs second root) →
     reducer (reducer state (NAVIGATE_TO first)) (NAVIGATE_TO second)
     = reducer state (NAVIGATE_TO second)).
Proof.
  assert (∀ t path root,
            findPathToNode root t = Some path → head path = Some root) as Hhead.
  { intros t path root H. by destruct (findPathToNode_sound _ _ _ H). }
  split.
  - simpl. destruct (history state) as [|root rest] eqn:Hhist; [by rewrite Hhist|].
    destruct (findPathToNode root first) as [path|] eqn:Hpath;
      [|by rewrite Hhist, Hpath].
    simpl. pose proof (Hhead _ _ _ Hpath) as Hp.
    destruct path as [|r path]; [discriminate|]. injection Hp as ->.
    by rewrite Hpath.
  - intros Hocc. simpl.
    destruct (history state) as [|root rest] eqn:Hhist; [by rewrite Hhist|].
    specialize (Hocc root eq_refl).
    destruct (findPathToNode root second) as [path2|] eqn:Hpath2;
      [|by apply findPathToNode_None in Hpath2].
    destruct (findPathToNode root first) as [path|] eqn:Hpath;
      [|by rewrite Hhist, Hpath2].
    simpl. pose proof (Hhead _ _ _ Hpath) as Hp.
    destruct path as [|r path]; [discriminate|]. injection Hp as ->.
    by rewrite Hpath2.
Qed.

Lemma navigate_last_wins_witness :
  reducer (reducer Sample.full_session (NAVIGATE_TO "2")) (NAVIGATE_TO "3")
  = reducer Sample.full_session (NAVIGATE_TO "3").
Proof.
  apply (navigate_last_wins Sample.full_session "2" "3").
  intros root [= <-]. exists Sample.skin. split; [|reflexivity].
  change (Sample.skin ∈ [Sample.avocado; Sample.seed; Sample.skin]).
  right. right. left.
Defined.

(** * More on the services *)

(** X10. Whatever bundle the synthesis returns, in either mode, has a non-empty
    exploded view: the scan stage of the pipeline is entered exactly when
    the synthesis returns a bundle, and it scans that view. *)
Theorem synthesis_bundle_is_scanned (env : Env) (subject : string)
  (partNames : list string) (mode : GenerationMode) (ref : option string)
  (options : GenerationOptions) :
  explodedOf (generateVisualAssets env subject partNames mode ref options)
  = exploded <$> generateVisualAssets env subject partNames mode ref options.
Proof.
  destruct (generateVisualAssets env subject partNames mode ref options)
    as [imgs|] eqn:Himgs; [|done].
  simpl. by rewrite (generateVisualAssets_exploded _ _ _ _ _ _ _ Himgs).
Qed.

Section NoKey.
Context `{platform : Js.Text}.
Variable env : Env.
Hypothesis no_key : apiKey env = "".

Lemma no_key_falsy : Js.truthy (apiKey env) = false.
Proof. by rewrite no_key. Qed.

Lemma no_key_inert (subject query image : string) (partNames : list string)
  (mode : GenerationMode) (ref : option string) (options : GenerationOptions) :
  generateVisualAssets env subject partNames mode ref options = None
  ∧ detectPartCoordinates env image partNames = []
  ∧ (∃ msg, analyzeStructure env query = ([], Throw msg))
  ∧ (∃ msg, identifyMainObject env image = ([], Throw msg)).
Proof.
  unfold generateVisualAssets, detectPartCoordinates, analyzeStructure,
    identifyMainObject.
  rewrite no_key_falsy. simpl. rewrite orb_true_r.
  repeat split; eauto.
Qed.

End NoKey.

(** X11. Without an API key no service does anything: the synthesis returns no
    bundle, the scan returns no parts, and the analysis and the
    identification raise; a request that reaches the pipeline then ends in
    the error status right after the analyzing status. *)
Theorem no_key_no_service `{platform : Js.Text}
  (env : Env) (state : AppState) (subject query image : string)
  (partNames : list string) (mode : GenerationMode)
  (parentId ref : option string) (options : GenerationOptions) :
  apiKey env = "" →
  generateVisualAssets env subject partNames mode ref options = None
  ∧ detectPartCoordinates env image partNames = []
  ∧ (∃ msg, analyzeStructure env query = ([], Throw msg))
  ∧ (∃ msg, identifyMainObject env image = ([], Throw msg))
  ∧ (reaches_pipeline state query parentId →
     explore env state query parentId ref
     = ([SET_STATUS (analyzing_status query); SET_STATUS failure_status],
        Return tt)).
Proof.
  intros Hkey.
  destruct (no_key_inert env Hkey subject query image partNames mode ref options)
    as (H1 & H2 & H3 & H4).
  repeat split; try done.
  intros Hreach. rewrite explore_reaches_pipeline by done.
  rewrite pipeline_eq.
  destruct (no_key_inert env Hkey subject (contextQuery state query parentId)
              image partNames mode ref options) as (_ & _ & [msg ->] & _).
  reflexivity.
Qed.

Lemma no_key_no_service_witness :
  explore SampleMore.env_no_key Sample.full_session "Pit" (Some "1") None
  = ([SET_STATUS (analyzing_status "Pit"); SET_STATUS failure_status], Return tt).
Proof.
  apply (no_key_no_service (platform := ascii_text)
          SampleMore.env_no_key Sample.full_session
           "" "Pit" "" [] full (Some "1") None (generationOptions initialState)
           eq_refl).
  repeat split.
Defined.

Section Defaults.
Context `{platform : Js.Text}.

Lemma or_else_truthy o d : Js.truthy d = true → Js.truthy (Js.or_else o d) = true.
Proof.
  intros Hd. destruct o as [s|]; simpl; [|done].
  by destruct (Js.truthy s) eqn:Hs.
Qed.

Lemma truthy_nonempty s : Js.truthy s = true ↔ s ≠ "".
Proof.
  unfold Js.truthy. destruct (String.eqb_spec s ""); simpl; split; congruence.
Qed.

Lemma analyzeStructure_Return env q tr structure :
  analyzeStructure env q = (tr, Return structure) →
  ∃ data, analysis_reply env = Replies data
    ∧ structure =
        {| s_id := Js.num_to_string (clock env AtAnalysis);
           s_name := Js.or_else (data_name data) q;
           s_category := Js.or_else (data_category data) "Unknown";
           s_description := Js.or_else (data_description data) "No description.";
           s_partNames := default [] (data_partNames data);
           s_facts := default [] (data_facts data);
           s_characteristics := default [] (data_characteristics data) |}.
Proof.
  unfold analyzeStructure. destruct (negb _); [discriminate|].
  destruct (analysis_reply env) as [|data]; [discriminate|].
  intros [= _ <-]. eauto.
Qed.

End Defaults.

(** X12. The analysis never hands out an empty category or description, nor an
    empty name for a non-empty query, whatever fields the service reply
    lacks or leaves empty; and the identification never hands out an empty
    object name. *)
Theorem analysis_fields_never_empty `{platform : Js.Text}
  (env : Env) (query image : string) :
  (∀ tr structure,
     analyzeStructure env query = (tr, Return structure) →
     s_category structure ≠ "" ∧ s_description structure ≠ ""
     ∧ (query ≠ "" → s_name structure ≠ ""))
  ∧ (∀ tr objectName,
       identifyMainObject env image = (tr, Return objectName) →
       objectName ≠ "").
Proof.
  split.
  - intros tr structure (data & _ & ->)%analyzeStructure_Return. simpl.
    split; [|split].
    + by apply truthy_nonempty, or_else_truthy.
    + by apply truthy_nonempty, or_else_truthy.
    + intros Hq. by apply truthy_nonempty, or_else_truthy, truthy_nonempty.
  - intros tr objectName. unfold identifyMainObject.
    destruct (negb _); [discriminate|].
    destruct (identify_reply env) as [|text]; [discriminate|].
    intros [= _ <-]. by apply truthy_nonempty, or_else_truthy.
Qed.

Lemma analysis_fields_never_empty_witness :
  ∃ structure,
    analyzeStructure Sample.env_no_images "Avocado" = ([], Return structure)
    ∧ s_description structure = "No description."
    ∧ s_name structure ≠ "".
Proof.
  eexists. split; [reflexivity|]. split; [reflexivity|].
  refine (proj2 (proj2 (proj1 (analysis_fields_never_empty (platform := ascii_text)
          Sample.env_no_images
                                 "Avocado" "") [] _ eq_refl)) _).
  discriminate.
Defined.

(** * The parts of a compiled item *)

Section PartIdentifiers.
Context `{platform : Js.Text}.

Lemma digits_no_dash d : has_char "-" (NilEmpty.string_of_uint d) = false.
Proof. induction d; simpl; done. Qed.

Lemma nat_string_no_dash (i : nat) :
  has_char "-" (Js.num_to_string (Z.of_nat i)) = false.
Proof.
  unfold Js.num_to_string. destruct i as [|i]; [reflexivity|].
  simpl. unfold NilZero.string_of_uint.
  destruct (Pos.to_uint (Pos.of_succ_nat i)) eqn:Hd;
    try (rewrite <- Hd; apply digits_no_dash).
  reflexivity.
Qed.

Lemma to_int_proper z : Z.to_int z ≠ Decimal.Pos Decimal.Nil
                        ∧ Z.to_int z ≠ Decimal.Neg Decimal.Nil.
Proof.
  destruct z as [|p|p]; simpl; split; try discriminate;
    intros [= H]; by apply DecimalPos.Unsigned.to_uint_nonnil in H.
Qed.

Lemma num_to_string_inj z1 z2 :
  Js.num_to_string z1 = Js.num_to_string z2 → z1 = z2.
Proof.
  unfold Js.num_to_string. intros Heq.
  apply (f_equal NilZero.int_of_string) in Heq.
  destruct (to_int_proper z1) as [? ?], (to_int_proper z2) as [? ?].
  rewrite !NilZero.isi in Heq by done.
  injection Heq as Heq. by apply DecimalZ.to_int_inj.
Qed.

(** A string is cut in one way only at its last dash. *)
Lemma last_dash_unique (t1 t2 n1 n2 : string) :
  has_char "-" n1 = false → has_char "-" n2 = false →
  t1 +:+ String "-" n1 = t2 +:+ String "-" n2 → n1 = n2.
Proof.
  intros H1 H2. revert t2.
  induction t1 as [|c t1 IH]; intros [|c2 t2]; simpl.
  - by intros [= ->].
  - intros [= <- ->]. clear -H1. exfalso.
    induction t2 as [|a t2 IHt]; simpl in H1; [done|].
    apply orb_false_iff in H1 as [_ H1]. auto.
  - intros [= -> <-]. clear -H2. exfalso.
    induction t1 as [|a t1 IHt]; simpl in H2; [done|].
    apply orb_false_iff in H2 as [_ H2]. auto.
  - intros [= _ Heq]. by apply (IH t2).
Qed.

Lemma part_ident_inj env i j : part_ident env i = part_ident env j → i = j.
Proof.
  unfold part_ident. intros Heq.
  change (?t +:+ "-" +:+ ?n) with (t +:+ String "-" n) in Heq.
  apply last_dash_unique in Heq; try apply nat_string_no_dash.
  apply num_to_string_inj in Heq. lia.
Qed.

Lemma NoDup_imap_index {A B : Type} (f : nat → A → B) (xs : list A) :
  (∀ i j x y, f i x = f j y → i = j) → NoDup (imap f xs).
Proof.
  intros Hinj. apply NoDup_alt. intros i j y.
  rewrite !list_lookup_imap.
  destruct (xs !! i) as [x1|]; [|discriminate].
  destruct (xs !! j) as [x2|]; [|discriminate].
  simpl. intros [= <-] [= Heq]. symmetry. by eapply Hinj.
Qed.

Lemma fallbackParts_ids env names :
  NoDup (part_id <$> fallbackParts env names).
Proof.
  unfold fallbackParts. rewrite fmap_imap.
  apply NoDup_imap_index. intros i j x y. apply part_ident_inj.
Qed.

Lemma detectPartCoordinates_ids env img names :
  NoDup (part_id <$> detectPartCoordinates env img names).
Proof.
  unfold detectPartCoordinates.
  destruct (_ || _); [constructor|].
  destruct (scan_reply env) as [|partsData]; [constructor|].
  rewrite fmap_imap.
  apply NoDup_imap_index. intros i j x y. apply part_ident_inj.
Qed.

End PartIdentifiers.

(** X13. The parts of a compiled item have pairwise distinct identifiers, whether
    they come from the scan or from the synthetic placement and whatever the
    clock reads: the index after the last dash tells them apart. *)
Theorem part_identifiers_distinct `{platform : Js.Text}
  (env : Env) (state : AppState) (query : string)
  (parentId referenceImage : option string) (item : ExploredItem) :
  item ∈ committed (explore env state query parentId referenceImage).1 →
  NoDup (part_id <$> parts item).
Proof.
  intros (structure & rootIdent & _ & _ & _ & ->)%explore_committed.
  simpl. unfold finalParts. destruct (explodedOf _).
  - apply detectPartCoordinates_ids.
  - apply fallbackParts_ids.
Qed.

Lemma part_identifiers_distinct_witness :
  ∃ item,
    committed (explore SampleMore.env_ok Sample.full_session
                 "Avocado" None None).1 = [item]
    ∧ part_id <$> parts item = ["1700-0"; "1700-1"]
    ∧ NoDup (part_id <$> parts item).
Proof.
  pose (item := hd Sample.avocado
                  (committed (explore SampleMore.env_ok Sample.full_session
                                "Avocado" None None).1)).
  assert (item ∈ committed (explore SampleMore.env_ok Sample.full_session
                              "Avocado" None None).1) as Hin
    by (vm_compute; left).
  exists item. split; [reflexivity|]. split; [reflexivity|].
  exact (part_identifiers_distinct (platform := ascii_text) _ _ _ _ _ item Hin).
Defined.

(** X14. When there is no exploded image to scan, every analysed part name gets
    its synthetic hotspot: the parts of the compiled item are as many as the
    names, and the part at index i carries the i-th name, the generic
    description and the coordinates x = 50, y = 50 + 10 i. *)
Theorem synthetic_placement_without_image `{platform : Js.Text}
  (env : Env) (state : AppState)
  (query : string) (parentId referenceImage : option string)
  (item : ExploredItem) :
  item ∈ committed (explore env state query parentId referenceImage).1 →
  explodedOf (images item) = None →
  ∃ structure,
    analyzeStructure env (contextQuery state query parentId)
    = ([], Return structure)
    ∧ List.length (parts item) = List.length (s_partNames structure)
    ∧ ∀ i part_name_i,
        s_partNames structure !! i = Some part_name_i →
        parts item !! i
        = Some {| part_id := part_ident env i;
                  part_name := part_name_i;
                  part_description := "Visual analysis unavailable.";
                  part_x := 50;
                  part_y := 50 + 10 * Z.of_nat i |}.
Proof.
  intros Hin Hnone.
  destruct (committed_without_exploded _ _ _ _ _ _ Hin Hnone)
    as (structure & Ha & Hparts).
  exists structure. split; [done|]. rewrite Hparts. split.
  - apply fallbackParts_length.
  - intros i n Hi. by apply fallbackParts_lookup.
Qed.

Lemma synthetic_placement_without_image_witness :
  ∃ item,
    committed (explore Sample.env_no_images Sample.full_session
                 "Avocado" None None).1 = [item]
    ∧ List.length (parts item) = 3
    ∧ (part_y <$> parts item !! 2) = Some 70%Z.
Proof.
  pose (item := hd Sample.avocado
                  (committed (explore Sample.env_no_images Sample.full_session
                                "Avocado" None None).1)).
  assert (item ∈ committed (explore Sample.env_no_images Sample.full_session
                              "Avocado" None None).1) as Hin
    by (vm_compute; left).
  destruct (synthetic_placement_without_image (platform := ascii_text)
          _ _ _ _ _ item Hin eq_refl)
    as (structure & [= <-] & Hlen & Hat).
  exists item. split; [reflexivity|]. split; [exact Hlen|].
  by rewrite (Hat 2 "Seed" eq_refl).
Defined.

(** * More on the explore pipeline *)

Section Runs.
Context `{platform : Js.Text}.
Variables (env : Env) (state : AppState) (query : string)
  (parentId referenceImage : option string).

(** Every way a request can go. *)
Lemma explore_cases :
  let run := explore env state query parentId referenceImage in
  (isGenerating (status state) = true ∧ run = ([], Return tt))
  ∨ (isGenerating (status state) = false
     ∧ ∃ child, existingChild state query parentId = Some child
         ∧ run = ([NAVIGATE_TO (id child)], Return tt))
  ∨ (isGenerating (status state) = false
     ∧ run = ([SET_STATUS offline_status], Return tt))
  ∨ (reaches_pipeline state query parentId
     ∧ run = ([SET_STATUS (analyzing_status query); SET_STATUS failure_status],
              Return tt))
  ∨ (reaches_pipeline state query parentId
     ∧ ∃ structure,
         run = (progress env state query parentId referenceImage structure
                ++ [SET_STATUS failure_status], Return tt))
  ∨ (reaches_pipeline state query parentId
     ∧ ∃ structure rootIdent,
         analyzeStructure env (contextQuery state query parentId)
         = ([], Return structure)
         ∧ rootIdValue state parentId structure = Some rootIdent
         ∧ run = (progress env state query parentId referenceImage structure
                  ++ [UPDATE_SESSION
                        (completeItem env state query parentId referenceImage
                           structure rootIdent)
                        (newHistory state parentId
                           (completeItem env state query parentId referenceImage
                              structure rootIdent))
                        (newRoot state parentId
                           (completeItem env state query parentId referenceImage
                              structure rootIdent));
                      SET_STATUS complete_status], Return tt)).
Proof.
  intros run. subst run. unfold explore.
  destruct (isGenerating (status state)) eqn:Hgen; [by left|].
  destruct (existingChild state query parentId) as [child|] eqn:Hmem;
    [right; left; eauto|].
  destruct (isOffline state) eqn:Hoff; [right; right; left; eauto|].
  assert (reaches_pipeline state query parentId) as Hreach by done.
  rewrite pipeline_eq.
  pose proof (analyzeStructure_trace env (contextQuery state query parentId)) as Htr.
  destruct (analyzeStructure env (contextQuery state query parentId))
    as [tr [structure|msg]]; simpl in Htr; subst tr.
  - destruct (rootIdValue state parentId structure) as [rootIdent|] eqn:Hroot;
      cbv beta iota zeta delta [try_catch dispatch].
    + do 5 right. split; [done|]. by exists structure, rootIdent.
    + do 4 right. left. split; [done|]. by exists structure.
  - do 3 right. left. by split.
Qed.

Lemma statuses_progress structure :
  stage <$> statuses (progress env state query parentId referenceImage structure)
  = [analyzing; rendering_assembled]
    ++ match explodedOf (generatedImages env state query parentId referenceImage
                           structure) with
       | Some _ => [scanning]
       | None => []
       end.
Proof. unfold progress. by destruct (explodedOf _). Qed.

(** After a successful run: what the two closing actions leave. *)
Lemma dispatch_success pre item path root st :
  Forall sets_status pre →
  let state' := dispatch_all state (pre ++ [UPDATE_SESSION item path root; SET_STATUS st]) in
  currentItem state' = Some item
  ∧ history state' = path
  ∧ status state' = st
  ∧ collection state' = collection (reducer state (UPDATE_SESSION item path root)).
Proof.
  intros Hpre state'. subst state'.
  destruct (dispatch_statuses_frame pre Hpre state) as (_ & _ & Hcoll).
  unfold dispatch_all in *. rewrite fold_left_app. simpl. by rewrite Hcoll.
Qed.

Lemma upsert_contains item path root :
  root ∈ collection (reducer state (UPDATE_SESSION item path root)).
Proof.
  simpl. destruct (findIndex _ (collection state)) as [k|] eqn:Hfind; [|left].
  destruct (findIndex_Some _ _ _ Hfind) as (old & Hk & _).
  apply list_elem_of_lookup. exists k.
  apply list_lookup_insert_eq. by eapply lookup_lt_Some.
Qed.

End Runs.

Lemma explore_never_returns_throw `{platform : Js.Text}
  (env : Env) (state : AppState) (query : string)
  (referenceImage : option string) :
  (explore env state query None referenceImage).2 = Return tt
  ∧ ∀ parentId, (explore env state query parentId referenceImage).2 = Return tt.
Proof.
  assert (∀ p, (explore env state query p referenceImage).2 = Return tt) as H.
  { intros p.
    destruct (explore_cases env state query p referenceImage)
      as [[_ ->]|[(_ & c & _ & ->)|[[_ ->]|[[_ ->]|[(_ & s & ->)|(_ & s & i & _ & _ & ->)]]]]];
      reflexivity. }
  split; [apply H | exact H].
Qed.

(** X15. A request never raises: whatever the services do, [explore] and
    [exploreFromDataUrl] return normally, the failure having been turned
    into a status. *)
Theorem explore_never_throws `{platform : Js.Text}
  (env : Env) (state : AppState) (query : string)
  (parentId referenceImage : option string) :
  (explore env state query parentId referenceImage).2 = Return tt
  ∧ (exploreFromDataUrl env state query).2 = Return tt.
Proof.
  assert (∀ q p r, (explore env state q p r).2 = Return tt) as Hexplore.
  { intros q p r.
    destruct (explore_cases env state q p r)
      as [[_ ->]|[(_ & c & _ & ->)|[[_ ->]|[[_ ->]|[(_ & s & ->)|(_ & s & i & _ & _ & ->)]]]]];
      reflexivity. }
  split; [apply Hexplore|].
  unfold exploreFromDataUrl.
  destruct (isGenerating (status state)); [done|].
  destruct (isOffline state); [done|].
  unfold identifyMainObject.
  destruct (negb _); [done|].
  destruct (identify_reply env) as [|text]; [done|].
  simpl.
  specialize (Hexplore (Js.or_else (Js.trim <$> text) "Unknown Object") None
                (Some query)).
  destruct (explore env state _ None (Some query)) as [tr out].
  simpl in Hexplore. by subst out.
Qed.

(** X16. A request that was let in always lets go of the in-flight guard: the
    status it leaves behind is not generating, whether it navigated,
    completed or failed. *)
Theorem explore_releases_guard `{platform : Js.Text}
  (env : Env) (state : AppState) (query : string)
  (parentId referenceImage : option string) :
  isGenerating (status state) = false →
  isGenerating (status (after state
                          (explore env state query parentId referenceImage)))
  = false.
Proof.
  intros Hgen. unfold after.
  destruct (explore_cases env state query parentId referenceImage)
    as [[Hbusy _]|[(_ & c & _ & ->)|[[_ ->]|[[_ ->]|[(_ & s & ->)|(_ & s & i & _ & _ & ->)]]]]].
  - congruence.
  - unfold dispatch_all. simpl.
    destruct (history state) as [|r rest]; [done|].
    by destruct (findPathToNode r (id c)).
  - reflexivity.
  - reflexivity.
  - simpl. by rewrite dispatch_all_snoc.
  - cbn [fst].
    match goal with
    | |- context [dispatch_all state
                    (?pre ++ [UPDATE_SESSION ?it ?pa ?ro; SET_STATUS ?st])] =>
        destruct (dispatch_success state pre it pa ro st
                    (progress_sets_status env state query parentId
                       referenceImage s)) as (_ & _ & -> & _)
    end.
    reflexivity.
Qed.

Lemma explore_releases_guard_witness :
  isGenerating (status (after Sample.full_session
                          (explore SampleMore.env_ok Sample.full_session
                             "Pit" (Some "1") None))) = false.
Proof.
  exact (explore_releases_guard (platform := ascii_text)
          SampleMore.env_ok Sample.full_session
           "Pit" (Some "1") None eq_refl).
Defined.

(** X17. The stages a request exposes follow one of seven sequences: progress
    runs through analyzing, rendering_assembled and, when there is an image
    to scan, scanning, and ends with complete or error; the stages idle and
    rendering_details are never exposed. *)
Theorem explore_stage_sequences `{platform : Js.Text}
  (env : Env) (state : AppState) (query : string)
  (parentId referenceImage : option string) :
  stage <$> statuses (explore env state query parentId referenceImage).1
  ∈ stage_sequences.
Proof.
  unfold stage_sequences.
  destruct (explore_cases env state query parentId referenceImage)
    as [[_ ->]|[(_ & c & _ & ->)|[[_ ->]|[[_ ->]|[(_ & s & ->)|(_ & s & i & _ & _ & ->)]]]]];
    cbn [fst].
  - left.
  - left.
  - right. left.
  - do 2 right. left.
  - rewrite statuses_app, fmap_app, statuses_progress.
    destruct (explodedOf _); simpl.
    + do 4 right. left.
    + do 3 right. left.
  - rewrite statuses_app, fmap_app, statuses_progress.
    destruct (explodedOf _); simpl.
    + do 6 right. left.
    + do 5 right. left.
Qed.

Section Results.
Context `{platform : Js.Text}.
Variables (env : Env) (state : AppState) (query : string)
  (parentId referenceImage : option string) (structure : StructureAnalysis)
  (rootIdent : string).

Let item : ExploredItem :=
  completeItem env state query parentId referenceImage structure rootIdent.

(** The state a completed request leaves. *)
Lemma after_completed :
  reaches_pipeline state query parentId →
  analyzeStructure env (contextQuery state query parentId) = ([], Return structure) →
  rootIdValue state parentId structure = Some rootIdent →
  let state' := after state (explore env state query parentId referenceImage) in
  currentItem state' = Some item
  ∧ history state' = newHistory state parentId item
  ∧ status state' = complete_status
  ∧ collection state'
    = collection (reducer state
                    (UPDATE_SESSION item (newHistory state parentId item)
                       (newRoot state parentId item)))
  ∧ newRoot state parentId item ∈ collection state'.
Proof.
  intros Hreach Ha Hroot state'. subst state'. unfold after.
  rewrite (explore_completes _ _ _ _ _ _ _ Hreach Ha Hroot). cbn [fst].
  destruct (dispatch_success state _ item (newHistory state parentId item)
              (newRoot state parentId item) complete_status
              (progress_sets_status env state query parentId referenceImage
                 structure)) as (Hcur & Hhist & Hst & Hcoll).
  fold item. rewrite Hcur, Hhist, Hst, Hcoll.
  repeat split. apply upsert_contains.
Qed.

End Results.

(** X18. A root request that completes: the compiled item is its own root at
    depth 0, without children, named and identified by the analysis; it
    becomes the current item and the whole history, it is in the collection,
    the status is complete and the session is well formed. *)
Theorem root_request_result `{platform : Js.Text}
  (env : Env) (state : AppState) (query : string)
  (parentId referenceImage : option string) (structure : StructureAnalysis) :
  reaches_pipeline state query parentId →
  Js.truthy_opt parentId = false →
  analyzeStructure env query = ([], Return structure) →
  let state' := after state (explore env state query parentId referenceImage) in
  ∃ item,
    currentItem state' = Some item
    ∧ history state' = [item]
    ∧ item ∈ collection state'
    ∧ status state' = complete_status
    ∧ session_ok state'
    ∧ id item = s_id structure
    ∧ name item = s_name structure
    ∧ rootId item = id item
    ∧ depth item = 0%Z
    ∧ children item = Some [].
Proof.
  intros Hreach Hpid Ha state'. subst state'.
  rewrite <- (contextQuery_root state query parentId Hpid) in Ha.
  assert (rootIdValue state parentId structure = Some (s_id structure)) as Hroot
    by (unfold rootIdValue; by rewrite Hpid).
  destruct (after_completed env state query parentId referenceImage structure
              (s_id structure) Hreach Ha Hroot)
    as (Hcur & Hhist & Hst & _ & Hin).
  unfold newHistory, newRoot in *. rewrite Hpid in *.
  eexists. split; [exact Hcur|]. split; [exact Hhist|]. split; [exact Hin|].
  split; [exact Hst|]. split.
  { unfold session_ok. by rewrite Hcur, Hhist. }
  simpl. unfold effectiveName. by rewrite Hpid.
Qed.

Lemma root_request_result_witness :
  ∃ item,
    currentItem (after Sample.full_session
                   (explore SampleMore.env_ok Sample.full_session
                      "Avocado" None None)) = Some item
    ∧ history (after Sample.full_session
                 (explore SampleMore.env_ok Sample.full_session
                    "Avocado" None None)) = [item]
    ∧ id item = "1700"
    ∧ rootId item = "1700".
Proof.
  destruct (root_request_result (platform := ascii_text)
          SampleMore.env_ok Sample.full_session
              "Avocado" None None _ (conj eq_refl (conj eq_refl eq_refl))
              eq_refl eq_refl)
    as (item & Hcur & Hhist & _ & _ & _ & Hid & _ & Hroot & _).
  exists item. split; [exact Hcur|]. split; [exact Hhist|].
  split; [exact Hid|]. by rewrite Hroot.
Defined.

(** X19. A child request that completes under a parent that occurs in the active
    tree, with an identifier new to that tree: the compiled item is one
    level below the current item and carries the identifier of the active
    root and of the parent; the new root is the old one with the item
    attached, it keeps its identifier and is in the collection; the history
    is the chain from the new root through the parent to the item, which is
    the current item; the session is well formed. *)
Theorem child_request_result `{platform : Js.Text}
  (env : Env) (state : AppState) (query pid : string)
  (referenceImage : option string) (structure : StructureAnalysis)
  (root cur : ExploredItem) :
  reaches_pipeline state query (Some pid) →
  Js.truthy pid = true →
  analyzeStructure env (contextQuery state query (Some pid))
  = ([], Return structure) →
  head (history state) = Some root →
  currentItem state = Some cur →
  occurs pid root →
  ¬ occurs (s_id structure) root →
  let state' := after state (explore env state query (Some pid) referenceImage) in
  ∃ item ancestors parent,
    currentItem state' = Some item
    ∧ history state' = ancestors ++ [parent; item]
    ∧ id parent = pid
    ∧ head (history state') = Some (updateItemInTree root pid item)
    ∧ updateItemInTree root pid item ∈ collection state'
    ∧ id (updateItemInTree root pid item) = id root
    ∧ status state' = complete_status
    ∧ session_ok state'
    ∧ id item = s_id structure
    ∧ rootId item = id root
    ∧ parentId item = Some pid
    ∧ depth item = (depth cur + 1)%Z.
Proof.
  intros Hreach Hpid Ha Hroot Hcur Hocc Hfresh state'. subst state'.
  assert (rootIdValue state (Some pid) structure = Some (id root)) as Hrid.
  { unfold rootIdValue. simpl. by rewrite Hpid, Hroot. }
  destruct (after_completed env state query (Some pid) referenceImage structure
              (id root) Hreach Ha Hrid)
    as (Hcur' & Hhist & Hst & _ & Hin).
  set (item := completeItem env state query (Some pid) referenceImage structure
                 (id root)) in *.
  assert (∃ rest, history state = root :: rest) as [rest Hh].
  { destruct (history state) as [|r rest]; [discriminate|].
    injection Hroot as ->. eauto. }
  assert (newRoot state (Some pid) item = updateItemInTree root pid item) as Hnew.
  { unfold newRoot. cbn [Js.truthy_opt]. by rewrite Hpid, Hh. }
  destruct (attach_then_find pid item root Hocc Hfresh)
    as (ancestors & parent & Hfind & Hparent & Hhead).
  assert (newHistory state (Some pid) item = ancestors ++ [parent; item]) as Hpath.
  { unfold newHistory. cbn [Js.truthy_opt]. by rewrite Hpid, Hh, Hnew, Hfind. }
  rewrite Hnew in Hin. rewrite Hpath in Hhist.
  exists item, ancestors, parent.
  split; [exact Hcur'|]. split; [exact Hhist|]. split; [exact Hparent|].
  split; [by rewrite Hhist|]. split; [exact Hin|].
  split; [apply id_attach|]. split; [exact Hst|]. split.
  { unfold session_ok. rewrite Hcur', Hhist. split.
    - change (ancestors ++ [parent; item]) with (ancestors ++ [parent] ++ [item]).
      rewrite (assoc_L (++)). apply last_snoc.
    - by destruct (findPathToNode_sound _ _ _ Hfind) as (_ & _ & ? & _). }
  simpl. rewrite Hpid, Hcur. done.
Qed.

Lemma child_request_result_witness :
  ∃ item,
    history (after Sample.full_session
               (explore SampleMore.env_ok Sample.full_session
                  "Pit" (Some "1") None))
    = [updateItemInTree Sample.avocado "1" item; item]
    ∧ name item = "Pit from Avocado"
    ∧ depth item = 1%Z.
Proof.
  destruct (child_request_result (platform := ascii_text)
          SampleMore.env_ok Sample.full_session
              "Pit" "1" None _ Sample.avocado Sample.avocado
              (conj eq_refl (conj eq_refl eq_refl))
              eq_refl eq_refl eq_refl eq_refl)
    as (item & ancestors & parent & Hcur & _).
  - exists Sample.avocado. split; [left | reflexivity].
  - apply findPathToNode_None. reflexivity.
  - injection Hcur as <-. eexists. repeat split.
Defined.

(** X20. A child request whose parent identifier occurs nowhere in the active
    tree still completes, but attaches nothing: the stored root is the old
    root, the history is the old root followed by the new item, and the new
    item, although current, is not a node of the tree. *)
Theorem orphan_child_request `{platform : Js.Text}
  (env : Env) (state : AppState) (query pid : string)
  (referenceImage : option string) (structure : StructureAnalysis)
  (root : ExploredItem) :
  reaches_pipeline state query (Some pid) →
  Js.truthy pid = true →
  analyzeStructure env query = ([], Return structure) →
  head (history state) = Some root →
  ¬ occurs pid root →
  ¬ occurs (s_id structure) root →
  let state' := after state (explore env state query (Some pid) referenceImage) in
  ∃ item,
    currentItem state' = Some item
    ∧ history state' = [root; item]
    ∧ root ∈ collection state'
    ∧ ¬ occurs (id item) root
    ∧ name item = query
    ∧ status state' = complete_status.
Proof.
  intros Hreach Hpid Ha Hroot Hno Hfresh state'. subst state'.
  assert (contextQuery state query (Some pid) = query) as Hcq.
  { unfold contextQuery. destruct (history state); [done|].
    injection Hroot as ->. rewrite Hpid.
    apply findPathToNode_None in Hno. by rewrite Hno. }
  rewrite <- Hcq in Ha.
  assert (rootIdValue state (Some pid) structure = Some (id root)) as Hrid.
  { unfold rootIdValue. simpl. by rewrite Hpid, Hroot. }
  destruct (after_completed env state query (Some pid) referenceImage structure
              (id root) Hreach Ha Hrid)
    as (Hcur' & Hhist & Hst & _ & Hin).
  set (item := completeItem env state query (Some pid) referenceImage structure
                 (id root)) in *.
  assert (∃ rest, history state = root :: rest) as [rest Hh].
  { destruct (history state) as [|r rest]; [discriminate|].
    injection Hroot as ->. eauto. }
  assert (newRoot state (Some pid) item = root) as Hnew.
  { unfold newRoot. cbn [Js.truthy_opt]. rewrite Hpid, Hh.
    by apply attach_absent. }
  assert (newHistory state (Some pid) item = [root; item]) as Hpath.
  { unfold newHistory. cbn [Js.truthy_opt]. rewrite Hpid, Hh, Hnew.
    apply findPathToNode_None in Hfresh.
    change (id item) with (s_id structure). by rewrite Hfresh. }
  rewrite Hnew in Hin. rewrite Hpath in Hhist.
  exists item.
  split; [exact Hcur'|]. split; [exact Hhist|]. split; [exact Hin|].
  split; [exact Hfresh|]. split; [|exact Hst].
  change (name item) with (effectiveName state query (Some pid) structure).
  unfold effectiveName. cbn [Js.truthy_opt]. by rewrite Hpid.
Qed.

Lemma orphan_child_request_witness :
  ∃ item,
    history (after Sample.full_session
               (explore SampleMore.env_ok Sample.full_session
                  "Pit" (Some "9") None))
    = [Sample.avocado; item]
    ∧ findPathToNode Sample.avocado (id item) = None.
Proof.
  destruct (orphan_child_request (platform := ascii_text)
          SampleMore.env_ok Sample.full_session
              "Pit" "9" None _ Sample.avocado
              (conj eq_refl (conj eq_refl eq_refl))
              eq_refl eq_refl eq_refl)
    as (item & _ & Hhist & _ & Hno & _).
  - apply findPathToNode_None. reflexivity.
  - apply findPathToNode_None. reflexivity.
  - exists item. split; [exact Hhist|]. by apply findPathToNode_None.
Defined.

(** * The part-name filter *)

Section Tokens.
Context `{platform : Js.Text}.

Lemma split_nonempty sep s : split sep s ≠ [].
Proof.
  destruct s as [|c t]; simpl; [done|].
  destruct (Ascii.eqb c sep); [done|]. by destruct (split sep t).
Qed.

(** No token holds the separator. *)
Lemma split_tokens sep s token :
  token ∈ split sep s → has_char sep token = false.
Proof.
  revert token. induction s as [|c t IH]; intros token; simpl.
  - by intros ->%list_elem_of_singleton.
  - destruct (Ascii.eqb c sep) eqn:Hc.
    + intros [->|Hin]%elem_of_cons; [done | by apply IH].
    + destruct (split sep t) as [|first rest] eqn:Hsplit.
      * intros ->%list_elem_of_singleton. simpl. by rewrite Hc.
      * intros [->|Hin]%elem_of_cons.
        -- simpl. rewrite Hc. apply IH. left.
        -- apply IH. by right.
Qed.

Lemma existsb_eqb (x : string) (xs : list string) :
  existsb (String.eqb x) xs = true ↔ x ∈ xs.
Proof.
  rewrite existsb_exists. split.
  - intros (y & Hy & ->%String.eqb_eq). by apply list_elem_of_In.
  - intros Hx. exists x. split; [by apply list_elem_of_In | apply String.eqb_refl].
Qed.

Lemma safePartNames_elem subject partNames part :
  part ∈ safePartNames subject partNames
  ↔ part ∈ partNames
    ∧ Js.toLowerCase part ∉ split " " (Js.toLowerCase subject).
Proof.
  unfold safePartNames. rewrite !list_elem_of_In, filter_In.
  apply and_iff_compat_l.
  destruct (existsb _ _) eqn:Hex.
  - apply existsb_eqb, list_elem_of_In in Hex.
    split; [discriminate | intros Hno; exfalso; apply Hno; exact Hex].
  - split; [|done]. intros _ Hin.
    apply list_elem_of_In, existsb_eqb in Hin. congruence.
Qed.

End Tokens.

(** X21. The filter keeps the part names in their order and drops exactly
    those whose lower-cased form is one of the pieces of the lower-cased
    subject between its spaces; a part name whose lower-cased form holds a
    space is therefore never dropped. *)
Theorem safePartNames_drops_subject_words `{platform : Js.Text}
  (subject : string) (partNames : list string) :
  sublist (safePartNames subject partNames) partNames
  ∧ (∀ part,
       part ∈ safePartNames subject partNames
       ↔ part ∈ partNames
         ∧ Js.toLowerCase part ∉ split " " (Js.toLowerCase subject))
  ∧ (∀ part,
       part ∈ partNames → has_char " " (Js.toLowerCase part) = true →
       part ∈ safePartNames subject partNames).
Proof.
  split; [|split].
  - unfold safePartNames.
    induction partNames as [|part rest IH]; simpl; [done|].
    destruct (existsb _ _); simpl; by constructor.
  - intros part. apply safePartNames_elem.
  - intros part Hin Hspace. apply safePartNames_elem. split; [done|].
    intros Htoken%split_tokens. congruence.
Qed.

Lemma safePartNames_drops_subject_words_witness :
  safePartNames "Car Engine" ["Piston"; "engine"; "Engine Block"; "CAR"]
  = ["Piston"; "Engine Block"]
  ∧ "Engine Block" ∈ safePartNames "Car Engine"
                       ["Piston"; "engine"; "Engine Block"; "CAR"].
Proof.
  split; [reflexivity|].
  apply (safePartNames_drops_subject_words (platform := ascii_text) "Car Engine"
           ["Piston"; "engine"; "Engine Block"; "CAR"]).
  - right. right. left.
  - reflexivity.
Defined.

(** * Persistence *)

Section Stores.

Lemma keyed_empty : keyed ∅.
Proof. intros k x. by rewrite lookup_empty. Qed.

Lemma keyed_put item store : keyed store → keyed (put item store).
Proof.
  intros Hk k x. unfold put. rewrite lookup_insert_Some.
  intros [[<- <-]|[_ Hx]]; [done | by apply Hk].
Qed.

Lemma keyed_delete target store : keyed store → keyed (delete target store).
Proof.
  intros Hk k x. rewrite lookup_delete_Some. intros [_ Hx]. by apply Hk.
Qed.

Lemma keyed_bulk items : ∀ store,
  keyed store → keyed (foldl (λ st item, put item st) store items).
Proof.
  induction items as [|item items IH]; intros store Hk; simpl; [done|].
  by apply IH, keyed_put.
Qed.

(** After a bulk save, a key holds the last item of the array that has it,
    and what it held before when the array has none. *)
Lemma bulk_lookup items : ∀ (store : Store) k,
  foldl (λ st item, put item st) store items !! k
  = match last_with_id k items with
    | Some x => Some x
    | None => store !! k
    end.
Proof.
  unfold last_with_id.
  induction items as [|item items IH] using rev_ind; intros store k; [done|].
  rewrite foldl_snoc, reverse_snoc. simpl. unfold put.
  destruct (String.eqb_spec (id item) k) as [->|Hne].
  - by rewrite lookup_insert_eq.
  - rewrite lookup_insert_ne by done. apply IH.
Qed.

(** The loop over entries that all have a key. *)
Lemma put_each_items items : ∀ store,
  put_each (Item <$> items) store
  = (foldl (λ st item, put item st) store items, Return tt).
Proof. induction items as [|item items IH]; intros store; simpl; [done | apply IH]. Qed.

(** The loop up to the first entry without a key. *)
Lemma put_each_unkeyed items rest : ∀ store,
  put_each ((Item <$> items) ++ Unkeyed :: rest) store
  = (foldl (λ st item, put item st) store items, Throw "DataError").
Proof. induction items as [|item items IH]; intros store; simpl; [done | apply IH]. Qed.

Lemma insert_newest_perm x sorted : insert_newest x sorted ≡ₚ x :: sorted.
Proof.
  induction sorted as [|y rest IH]; simpl; [done|].
  destruct (timestamp x <? timestamp y)%Z; [|done].
  rewrite IH. apply Permutation_swap.
Qed.

Lemma sort_newest_first_perm items : sort_newest_first items ≡ₚ items.
Proof.
  induction items as [|x items IH]; simpl; [done|].
  unfold sort_newest_first in *. simpl. by rewrite insert_newest_perm, IH.
Qed.

Lemma insert_newest_sorted x sorted :
  newest_first sorted → newest_first (insert_newest x sorted).
Proof.
  unfold newest_first.
  induction 1 as [|y rest Hrest IH Hall]; simpl.
  - by repeat constructor.
  - destruct (Z.ltb_spec (timestamp x) (timestamp y)) as [Hlt|Hge].
    + constructor; [done|].
      rewrite insert_newest_perm. constructor; [lia | done].
    + constructor; [by constructor|].
      constructor; [done|].
      eapply Forall_impl; [exact Hall|]. simpl. intros z Hz. lia.
Qed.

Lemma sort_newest_first_sorted items : newest_first (sort_newest_first items).
Proof.
  induction items as [|x items IH]; simpl; [constructor|].
  by apply insert_newest_sorted.
Qed.

Lemma getAll_perm (store : Store) : getAll store ≡ₚ (map_to_list store).*2.
Proof. unfold getAll. by rewrite merge_sort_Permutation. Qed.

Lemma elem_of_values (store : Store) x :
  x ∈ (map_to_list store).*2 ↔ ∃ k, store !! k = Some x.
Proof.
  rewrite list_elem_of_fmap. split.
  - intros ([k y] & -> & Hin). exists k. by apply elem_of_map_to_list.
  - intros [k Hk]. exists (k, x). split; [done|]. by apply elem_of_map_to_list.
Qed.

Lemma keyed_values_ids (store : Store) :
  keyed store → id <$> (map_to_list store).*2 = (map_to_list store).*1.
Proof.
  intros Hk. rewrite <- list_fmap_compose.
  apply list_fmap_ext. intros i [k x] Hin. simpl.
  apply Hk. apply elem_of_map_to_list. by eapply list_elem_of_lookup_2.
Qed.

(** What a successful load returns. *)
Lemma loaded_spec (store : Store) :
  let items := sort_newest_first (getAll store) in
  items ≡ₚ (map_to_list store).*2
  ∧ newest_first items
  ∧ (keyed store →
     NoDup (id <$> items) ∧ ∀ x, x ∈ items ↔ store !! id x = Some x).
Proof.
  intros items. subst items.
  assert (sort_newest_first (getAll store) ≡ₚ (map_to_list store).*2) as Hperm
    by (by rewrite sort_newest_first_perm, getAll_perm).
  split; [done|]. split; [apply sort_newest_first_sorted|].
  intros Hk. split.
  - rewrite Hperm, keyed_values_ids by done. apply NoDup_fst_map_to_list.
  - intros x. rewrite Hperm, elem_of_values. split.
    + intros [k Hx]. by rewrite (Hk _ _ Hx).
    + eauto.
Qed.

End Stores.

(** X22. A load that succeeds returns the stored items, each once, the newest
    first; when every item is stored under its identifier, the identifiers
    of the result are pairwise distinct. A load that cannot open the
    database returns the empty list, as if nothing were stored. *)
Theorem getAllExplorations_newest_first (store : Store) :
  (∃ items,
     getAllExplorations DbOk store = Return items
     ∧ items ≡ₚ (map_to_list store).*2
     ∧ newest_first items
     ∧ (keyed store →
        NoDup (id <$> items) ∧ ∀ x, x ∈ items ↔ store !! id x = Some x))
  ∧ getAllExplorations OpenFails store = Return [].
Proof.
  split; [|done]. eexists. split; [reflexivity|]. apply loaded_spec.
Qed.

(** X23. A bulk save of entries that all have a key succeeds and leaves,
    under every identifier, the last item of the array that carries it, and
    otherwise what was stored before: imported items win over stored ones,
    later items over earlier ones; items stay stored under their
    identifiers. When an entry without a key follows, the bulk save raises,
    and the store is the same as if the entries before that one had been
    saved alone: they are committed. When the database cannot be opened or
    the transaction fails, the bulk save raises and the store is as it
    was. *)
Theorem bulkSaveExplorations_last_wins (items : list ExploredItem)
  (rest : list Entry) (store : Store) :
  (∃ store',
     bulkSaveExplorations DbOk (Item <$> items) store = (store', Return tt)
     ∧ (∃ msg,
          bulkSaveExplorations DbOk ((Item <$> items) ++ Unkeyed :: rest) store
          = (store', Throw msg))
     ∧ (∀ k, store' !! k = match last_with_id k items with
                            | Some x => Some x
                            | None => store !! k
                            end)
     ∧ (keyed store → keyed store'))
  ∧ (∀ fault entries, fault ≠ DbOk →
       ∃ msg, bulkSaveExplorations fault entries store = (store, Throw msg)).
Proof.
  split.
  - eexists. split; [apply put_each_items|]. split; [|split].
    + eexists. apply put_each_unkeyed.
    + apply bulk_lookup.
    + apply keyed_bulk.
  - intros [| |] entries Hfault; [done| |]; eexists; reflexivity.
Qed.

Lemma keyed_shelf : keyed SampleMore.shelf.
Proof. repeat apply keyed_put. apply keyed_empty. Qed.

Lemma getAllExplorations_newest_first_witness :
  ∃ items,
    getAllExplorations DbOk SampleMore.shelf = Return items
    ∧ name <$> items = ["Banana"; "Cherry"; "Apple"]
    ∧ NoDup (id <$> items).
Proof.
  destruct (getAllExplorations_newest_first SampleMore.shelf)
    as [(items & Hload & _ & _ & Hkeyed) _].
  exists items. split; [exact Hload|].
  split; [|apply Hkeyed, keyed_shelf].
  vm_compute in Hload. by injection Hload as <-.
Defined.

Lemma bulkSaveExplorations_last_wins_witness :
  (∃ store',
     bulkSaveExplorations DbOk [Item (SampleMore.stamped "a" "Red Apple" 5);
                                Item SampleMore.green_apple] SampleMore.shelf
     = (store', Return tt)
     ∧ (∃ msg,
          bulkSaveExplorations DbOk
            [Item (SampleMore.stamped "a" "Red Apple" 5);
             Item SampleMore.green_apple; Unkeyed; Item SampleMore.banana]
            SampleMore.shelf
          = (store', Throw msg))
     ∧ store' !! "a" = Some SampleMore.green_apple
     ∧ store' !! "b" = Some SampleMore.banana
     ∧ keyed store')
  ∧ ∃ msg,
      bulkSaveExplorations RequestFails [Item SampleMore.green_apple]
        SampleMore.shelf
      = (SampleMore.shelf, Throw msg).
Proof.
  destruct (bulkSaveExplorations_last_wins
              [SampleMore.stamped "a" "Red Apple" 5; SampleMore.green_apple]
              [Item SampleMore.banana] SampleMore.shelf)
    as [(store' & Hsave & Hraise & Hlookup & Hkeyed) Hfail].
  split.
  - exists store'. split; [exact Hsave|]. split; [exact Hraise|].
    split; [by rewrite Hlookup|]. split; [by rewrite Hlookup|].
    apply Hkeyed, keyed_shelf.
  - by apply Hfail.
Defined.

Section Provider.

Lemma elem_of_filter_id (collection : list ExploredItem) target x :
  x ∈ List.filter (λ item, negb (String.eqb (id item) target)) collection
  ↔ x ∈ collection ∧ id x ≠ target.
Proof.
  by rewrite !list_elem_of_In, filter_In, negb_true_iff, String.eqb_neq.
Qed.

Lemma last_with_id_Some k items x :
  last_with_id k items = Some x → x ∈ items ∧ id x = k.
Proof.
  unfold last_with_id. intros [Hin Hid]%find_some.
  apply list_elem_of_In in Hin. rewrite elem_of_reverse in Hin.
  apply String.eqb_eq in Hid. by split.
Qed.

Lemma last_with_id_is_Some items x :
  x ∈ items → is_Some (last_with_id (id x) items).
Proof.
  unfold last_with_id. intros Hin.
  destruct (List.find _ (reverse items)) as [y|] eqn:Hfind; [eauto|].
  rewrite <- elem_of_reverse in Hin. apply list_elem_of_In in Hin.
  pose proof (find_none _ _ Hfind _ Hin) as Hno. simpl in Hno.
  by rewrite String.eqb_refl in Hno.
Qed.

Lemma failed_fault fault : fault ≠ DbOk → fault = OpenFails ∨ fault = RequestFails.
Proof. destruct fault; auto. done. Qed.

End Provider.

(** X24. Saving a root and loading: the loaded list holds the saved root, no
    other item with its identifier, and beside it what was stored under the
    other identifiers. When the database cannot be opened for the save,
    nothing is stored and nothing is raised. *)
Theorem saveExploration_then_load (root : ExploredItem) (store : Store) :
  keyed store →
  (∃ store' items,
     saveExploration DbOk root store = (store', Return tt)
     ∧ getAllExplorations DbOk store' = Return items
     ∧ root ∈ items
     ∧ (∀ x, x ∈ items → id x = id root → x = root)
     ∧ (∀ x, id x ≠ id root → x ∈ items ↔ store !! id x = Some x))
  ∧ saveExploration OpenFails root store = (store, Return tt).
Proof.
  intros Hk. split; [|done].
  exists (put root store), (sort_newest_first (getAll (put root store))).
  split; [done|]. split; [done|].
  destruct (loaded_spec (put root store)) as (_ & _ & Hspec).
  destruct (Hspec (keyed_put _ _ Hk)) as [_ Hin].
  unfold put in *. split; [|split].
  - apply Hin. apply lookup_insert_eq.
  - intros x Hx Hid. apply Hin in Hx. rewrite Hid, lookup_insert_eq in Hx.
    by injection Hx.
  - intros x Hid. rewrite Hin, lookup_insert_ne by done. done.
Qed.

Lemma saveExploration_then_load_witness :
  ∃ store' items,
    saveExploration DbOk SampleMore.green_apple SampleMore.shelf
    = (store', Return tt)
    ∧ getAllExplorations DbOk store' = Return items
    ∧ SampleMore.green_apple ∈ items
    ∧ name <$> items = ["Green Apple"; "Banana"; "Cherry"].
Proof.
  destruct (saveExploration_then_load SampleMore.green_apple SampleMore.shelf
              keyed_shelf) as [(store' & items & Hsave & Hload & Hin & _) _].
  exists store', items. split; [exact Hsave|]. split; [exact Hload|].
  split; [exact Hin|].
  injection Hsave as <-. vm_compute in Hload. by injection Hload as <-.
Defined.



(** X26. The ways an import fails. When the file cannot be parsed, is not an
    array, or the bulk save cannot open the database or its transaction
    fails, nothing is stored or dispatched and the failure is alerted. When
    the array holds an entry without a key, nothing is dispatched and the
    failure is alerted, but the entries before that one are stored. When
    the save succeeds and the reload raises, the items are stored but the
    collection in memory is not touched and a failure is alerted. When the
    save succeeds and the reload cannot open the database, the collection
    in memory becomes empty and success is alerted, although the store
    holds every imported item. *)
Theorem importDatabase_failure_modes (items : list ExploredItem)
  (rest entries : list Entry) (saveFault loadFault : DbFault) (store : Store)
  (state : AppState) :
  let failed :=
    {| stored := store; dispatched := [];
       alerted := ["Failed to import database. Check file format."] |} in
  importDatabase Fails saveFault loadFault store = failed
  ∧ importDatabase (Replies None) saveFault loadFault store = failed
  ∧ (saveFault ≠ DbOk →
     importDatabase (Replies (Some entries)) saveFault loadFault store = failed)
  ∧ (let reaction :=
       importDatabase (Replies (Some ((Item <$> items) ++ Unkeyed :: rest)))
         DbOk loadFault store in
     dispatched reaction = []
     ∧ alerted reaction = ["Failed to import database. Check file format."]
     ∧ stored reaction = (bulkSaveExplorations DbOk (Item <$> items) store).1
     ∧ ∀ x, x ∈ items → is_Some (stored reaction !! id x))
  ∧ (let reaction :=
       importDatabase (Replies (Some (Item <$> items))) DbOk RequestFails store in
     dispatched reaction = []
     ∧ alerted reaction = ["Failed to import database. Check file format."]
     ∧ ∀ x, x ∈ items → is_Some (stored reaction !! id x))
  ∧ (let reaction :=
       importDatabase (Replies (Some (Item <$> items))) DbOk OpenFails store in
     collection (dispatch_all state (dispatched reaction)) = []
     ∧ alerted reaction = ["Database imported successfully."]
     ∧ ∀ x, x ∈ items → is_Some (stored reaction !! id x)).
Proof.
  intros failed.
  assert (∀ x, x ∈ items →
               is_Some (foldl (λ st item, put item st) store items !! id x))
    as Hstored.
  { intros x Hx. rewrite bulk_lookup.
    by destruct (last_with_id_is_Some items x Hx) as [y ->]. }
  split; [done|]. split; [done|]. split; [|split; [|split]].
  - intros Hfault. by destruct (failed_fault _ Hfault) as [H|H]; rewrite H.
  - unfold importDatabase, bulkSaveExplorations.
    rewrite put_each_unkeyed, put_each_items. by repeat split.
  - unfold importDatabase, bulkSaveExplorations.
    rewrite put_each_items. by repeat split.
  - unfold importDatabase, bulkSaveExplorations.
    rewrite put_each_items. by repeat split.
Qed.

Lemma importDatabase_failure_modes_witness :
  importDatabase (Replies (Some [Item SampleMore.green_apple])) OpenFails DbOk
    SampleMore.shelf
  = {| stored := SampleMore.shelf; dispatched := [];
       alerted := ["Failed to import database. Check file format."] |}
  ∧ (alerted (importDatabase
                (Replies (Some [Item SampleMore.green_apple; Unkeyed;
                                Item SampleMore.banana]))
                DbOk DbOk SampleMore.shelf)
     = ["Failed to import database. Check file format."]
     ∧ stored (importDatabase
                 (Replies (Some [Item SampleMore.green_apple; Unkeyed;
                                 Item SampleMore.banana]))
                 DbOk DbOk SampleMore.shelf) !! "a"
       = Some SampleMore.green_apple)
  ∧ collection (dispatch_all SampleMore.shelf_session
                  (dispatched (importDatabase
                                 (Replies (Some [Item SampleMore.green_apple]))
                                 DbOk OpenFails SampleMore.shelf))) = [].
Proof.
  destruct (importDatabase_failure_modes [SampleMore.green_apple]
              [Item SampleMore.banana] [Item SampleMore.green_apple]
              OpenFails DbOk SampleMore.shelf SampleMore.shelf_session)
    as (_ & _ & Hfail & _).
  destruct (importDatabase_failure_modes [SampleMore.green_apple]
              [Item SampleMore.banana] [Item SampleMore.green_apple]
              DbOk DbOk SampleMore.shelf SampleMore.shelf_session)
    as (_ & _ & _ & (_ & Halert & Hstored & _) & _ & Hopen & _).
  split; [by apply Hfail|]. split; [|exact Hopen].
  split; [exact Halert|].
  change (stored (importDatabase
                    (Replies (Some ((Item <$> [SampleMore.green_apple])
                                    ++ Unkeyed :: [Item SampleMore.banana])))
                    DbOk DbOk SampleMore.shelf) !! "a"
          = Some SampleMore.green_apple).
  rewrite Hstored. reflexivity.
Defined.

(** X27. Removing an exploration. When the deletion fails nothing is dispatched,
    the store stays and the failure is alerted. When it succeeds the
    identifier is gone from the store and from the collection, and every
    other root stays in both; the session is reset to idle, without current
    item and history, exactly when the active root carries the identifier,
    and is otherwise left as it was. *)
Theorem removeExploration_result (fault : DbFault) (state : AppState)
  (target : string) (store : Store) :
  let reaction := removeExploration fault state target store in
  let state' := dispatch_all state (dispatched reaction) in
  (fault ≠ DbOk →
   stored reaction = store ∧ dispatched reaction = []
   ∧ alerted reaction = ["Failed to delete item from database."])
  ∧ (fault = DbOk →
     stored reaction !! target = None
     ∧ (∀ k, k ≠ target → stored reaction !! k = store !! k)
     ∧ (∀ x, x ∈ collection state' ↔ x ∈ collection state ∧ id x ≠ target)
     ∧ alerted reaction = []
     ∧ ((∃ root, head (history state) = Some root ∧ id root = target) →
        currentItem state' = None ∧ history state' = []
        ∧ status state' = idle_status)
     ∧ (¬ (∃ root, head (history state) = Some root ∧ id root = target) →
        currentItem state' = currentItem state
        ∧ history state' = history state
        ∧ status state' = status state)).
Proof.
  intros reaction state'. subst reaction state'. split.
  - intros Hfault. by destruct (failed_fault _ Hfault) as [H|H]; rewrite H.
  - intros ->. unfold removeExploration. cbn [deleteExploration stored alerted dispatched].
    split; [apply lookup_delete_eq|].
    split; [intros k Hk; by apply lookup_delete_ne|].
    destruct (history state) as [|activeRoot rest] eqn:Hhist.
    + cbn. rewrite Hhist. split; [apply elem_of_filter_id|]. split; [done|].
      split; [by intros (root & [=] & _)|]. done.
    + destruct (String.eqb_spec (id activeRoot) target) as [Hid|Hid]; cbn.
      * split; [apply elem_of_filter_id|]. split; [done|].
        split; [done|]. intros Hno. exfalso. apply Hno. by exists activeRoot.
      * rewrite Hhist. split; [apply elem_of_filter_id|]. split; [done|].
        split; [|done]. intros (root & [= <-] & ?). done.
Qed.

Lemma removeExploration_result_witness :
  currentItem (dispatch_all SampleMore.shelf_session
                 (dispatched (removeExploration DbOk SampleMore.shelf_session
                                "b" SampleMore.shelf))) = None
  ∧ history (dispatch_all SampleMore.shelf_session
               (dispatched (removeExploration DbOk SampleMore.shelf_session
                              "c" SampleMore.shelf))) = [SampleMore.banana]
  ∧ stored (removeExploration RequestFails SampleMore.shelf_session
              "b" SampleMore.shelf) = SampleMore.shelf.
Proof.
  destruct (removeExploration_result DbOk SampleMore.shelf_session "b"
              SampleMore.shelf) as [_ Hactive].
  destruct (removeExploration_result DbOk SampleMore.shelf_session "c"
              SampleMore.shelf) as [_ Hother].
  destruct (removeExploration_result RequestFails SampleMore.shelf_session "b"
              SampleMore.shelf) as [Hfail _].
  destruct (Hactive eq_refl) as (_ & _ & _ & _ & Hreset & _).
  destruct (Hother eq_refl) as (_ & _ & _ & _ & _ & Hkeep).
  split; [|split].
  - apply Hreset. by exists SampleMore.banana.
  - apply Hkeep. by intros (root & [= <-] & ?).
  - by apply Hfail.
Defined.

(** * What a request leaves alone *)

Section Frame.
Context `{platform : Js.Text}.

Lemma request_action_frame action state :
  request_action action →
  settings (reducer state action) = settings state
  ∧ ∀ k, k ∈ id <$> collection state → k ∈ id <$> collection (reducer state action).
Proof.
  destruct action; try done; intros _.
  - split; [done|]. intros k Hk. simpl.
    destruct (findIndex _ (collection state)) as [i|] eqn:Hfind.
    + destruct (findIndex_Some _ _ _ Hfind) as (old & Hi & Hold).
      apply String.eqb_eq in Hold.
      by rewrite (fmap_insert_same_id _ _ _ _ Hi Hold).
    + by right.
  - simpl. destruct (history state) as [|r rest]; [done|].
    by destruct (findPathToNode r targetId).
Qed.

Lemma request_trace_frame trace : ∀ state,
  Forall request_action trace →
  settings (dispatch_all state trace) = settings state
  ∧ ∀ k, k ∈ id <$> collection state →
         k ∈ id <$> collection (dispatch_all state trace).
Proof.
  unfold dispatch_all.
  induction trace as [|action trace IH]; intros state Hall; [done|].
  apply Forall_cons in Hall as [Ha Hall]. cbn [fold_left].
  destruct (request_action_frame action state Ha) as [Hs Hc].
  destruct (IH (reducer state action) Hall) as [Hs' Hc'].
  split; [by rewrite Hs', Hs | auto].
Qed.

Lemma progress_request_actions env state query parentId referenceImage structure :
  Forall request_action
    (progress env state query parentId referenceImage structure).
Proof. unfold progress. destruct (explodedOf _); by repeat constructor. Qed.

Lemma explore_request_actions env state query parentId referenceImage :
  Forall request_action (explore env state query parentId referenceImage).1.
Proof.
  destruct (explore_cases env state query parentId referenceImage)
    as [[_ ->]|[(_ & c & _ & ->)|[[_ ->]|[[_ ->]|[(_ & s & ->)|(_ & s & i & _ & _ & ->)]]]]];
    cbn [fst]; try by repeat constructor.
  - apply Forall_app. split; [apply progress_request_actions|].
    by repeat constructor.
  - apply Forall_app. split; [apply progress_request_actions|].
    by repeat constructor.
Qed.

Lemma exploreFromDataUrl_request_actions env state base64 :
  Forall request_action (exploreFromDataUrl env state base64).1.
Proof.
  unfold exploreFromDataUrl.
  destruct (isGenerating (status state)); [constructor|].
  destruct (isOffline state); [by repeat constructor|].
  unfold identifyMainObject.
  destruct (negb _); [by repeat constructor|].
  destruct (identify_reply env) as [|text]; [by repeat constructor|].
  pose proof (explore_request_actions env state
                (Js.or_else (Js.trim <$> text) "Unknown Object") None (Some base64))
    as Hall.
  simpl.
  destruct (explore env state _ None (Some base64)) as [tr [[]|msg]];
    simpl in *; constructor; try done.
  apply Forall_app. split; [done|]. by repeat constructor.
Qed.

End Frame.

(** X28. No request, from text or from an image, changes the generation mode,
    the generation options or the access configuration, and none removes a
    root from the collection: every identifier the collection held is still
    in it afterwards. *)
Theorem requests_keep_settings_and_roots `{platform : Js.Text}
  (env : Env) (state : AppState)
  (query : string) (parentId referenceImage : option string) :
  (settings (after state (explore env state query parentId referenceImage))
   = settings state
   ∧ ∀ k, k ∈ id <$> collection state →
       k ∈ id <$> collection
                    (after state (explore env state query parentId referenceImage)))
  ∧ (settings (after state (exploreFromDataUrl env state query)) = settings state
     ∧ ∀ k, k ∈ id <$> collection state →
         k ∈ id <$> collection (after state (exploreFromDataUrl env state query))).
Proof.
  split; apply request_trace_frame.
  - apply explore_request_actions.
  - apply exploreFromDataUrl_request_actions.
Qed.

Lemma requests_keep_settings_and_roots_witness :
  "1" ∈ id <$> collection
                 (after Sample.full_session
                    (explore SampleMore.env_ok Sample.full_session
                       "Pit" (Some "1") None)).
Proof.
  apply (requests_keep_settings_and_roots (platform := ascii_text)
          SampleMore.env_ok Sample.full_session
           "Pit" (Some "1") None).
  left.
Defined.

(** X29. An image request. When the identification fails (no key, or the
    service call fails) the request exposes the analyzing status and then
    one error status, and leaves the current item, the history and the
    collection as they were. When it succeeds, [identifyMainObject] returns
    the trimmed text of the reply, or "Unknown Object" when there is no
    text or the trimmed text is empty; that name is never empty, and the
    request is the scanning status followed by the root text request for
    that name, with the image as reference. *)
Theorem exploreFromDataUrl_identification `{platform : Js.Text} (env : Env)
  (state : AppState) (base64 : string) :
  isGenerating (status state) = false →
  isOffline state = false →
  let run := exploreFromDataUrl env state base64 in
  (apiKey env = "" ∨ identify_reply env = Fails →
   stage <$> statuses run.1 = [analyzing; error]
   ∧ committed run.1 = []
   ∧ currentItem (after state run) = currentItem state
   ∧ history (after state run) = history state
   ∧ collection (after state run) = collection state)
  ∧ (∀ text, apiKey env ≠ "" → identify_reply env = Replies text →
     ∃ objectName,
       identifyMainObject env base64 = ([], Return objectName)
       ∧ objectName = Js.or_else (Js.trim <$> text) "Unknown Object"
       ∧ objectName ≠ ""
       ∧ run
         = (SET_STATUS
              {| isGenerating := true; stage := analyzing;
                 message := Some "Scanning image for object identification...";
                 currentFacts := None |}
            :: (explore env state objectName None (Some base64)).1,
            Return tt)).
Proof.
  intros Hgen Hoff run. subst run. split.
  - intros Hfail.
    by apply (exploreFromDataUrl_identification_failure env state base64).
  - intros text Hkey Hreply.
    exists (Js.or_else (Js.trim <$> text) "Unknown Object").
    apply truthy_nonempty in Hkey.
    assert (identifyMainObject env base64
            = ([], Return (Js.or_else (Js.trim <$> text) "Unknown Object")))
      as Hname by (unfold identifyMainObject; by rewrite Hkey, Hreply).
    split; [exact Hname|]. split; [reflexivity|].
    split; [by apply truthy_nonempty, or_else_truthy|].
    unfold exploreFromDataUrl. rewrite Hgen, Hoff, Hname.
    pose proof (proj1 (explore_never_returns_throw env state
                         (Js.or_else (Js.trim <$> text) "Unknown Object")
                         (Some base64))) as Hret.
    simpl.
    destruct (explore env state _ None (Some base64)) as [tr out].
    simpl in Hret. subst out. reflexivity.
Qed.

Lemma exploreFromDataUrl_identification_witness :
  stage <$> statuses (exploreFromDataUrl SampleMore.env_no_key
                        SampleMore.shelf_session "data").1
  = [analyzing; error]
  ∧ identifyMainObject SampleMore.env_ok "data" = ([], Return "Avocado")
  ∧ ∃ first,
      exploreFromDataUrl SampleMore.env_ok SampleMore.shelf_session "data"
      = (SET_STATUS first
         :: (explore SampleMore.env_ok SampleMore.shelf_session "Avocado" None
               (Some "data")).1,
         Return tt).
Proof.
  destruct (exploreFromDataUrl_identification (platform := ascii_text)
              SampleMore.env_no_key SampleMore.shelf_session "data"
              eq_refl eq_refl) as [Hfail _].
  destruct (exploreFromDataUrl_identification (platform := ascii_text)
              SampleMore.env_ok SampleMore.shelf_session "data"
              eq_refl eq_refl) as [_ Hgo].
  split; [apply Hfail; by left|].
  destruct (Hgo (Some "Avocado"))
    as (objectName & Hident & Hname & _ & Hrun);
    [discriminate | reflexivity |].
  change (Js.or_else (Js.trim <$> Some "Avocado") "Unknown Object")
    with "Avocado" in Hname.
  subst objectName. split; [exact Hident|]. eexists. exact Hrun.
Defined.
